(** * Descent analysis of ski-touring tracks: a shallow embedding

    The definitions below follow [scripts/analyze-descents.js]: the elevation
    smoother, the descent segment finder, the steep segment analyzer, the
    descent evaluator, the scorer and the per-route part of the two
    aggregators.

    Numbers.  A JavaScript number is modelled as a real number ([R]): sums,
    quotients and comparisons are the exact ones, [NaN] and the infinities
    are outside the model.  [Math.sin], [Math.cos], [Math.sqrt], [Math.atan]
    and [Math.PI] are the functions and the constant of the real-number
    library; [Math.atan2] and [Math.round] are written out below.  Array
    indices and lengths are natural numbers; where the source subtracts
    indices before clamping, the subtraction is done in [Z].

    Null.  A value that may be [null] is an [option]; [None] is [null]. *)

From Stdlib Require Import Reals Lra Lia List ZArith Bool Sorting.Sorted Sorting.Permutation.
From Stdlib Require String.
From Stdlib Require Import Zfloor.
Import ListNotations.
Open Scope R_scope.

(** ** Numbers and comparisons *)

Definition Rltb (x y : R) : bool := if Rlt_dec x y then true else false.
Definition Rleb (x y : R) : bool := if Rle_dec x y then true else false.

(** [Math.round]: the nearest integer, a half rounded up. *)
Definition js_round (x : R) : R := IZR (Zfloor (x + / 2)).

(** [Math.atan2 y x] *)
Definition atan2 (y x : R) : R :=
  if Rltb 0 x then atan (y / x)
  else if Rltb x 0 then (if Rleb 0 y then atan (y / x) + PI else atan (y / x) - PI)
  else if Rltb 0 y then PI / 2
  else if Rltb y 0 then - (PI / 2)
  else 0.

(** ** Configuration *)

Definition SMOOTH_WINDOW : nat := 10.
Definition MIN_DROP_M : R := 200.
Definition MIN_CLIMB_TO_RESET : R := 100.
Definition STEEP_MIN_DEG : R := 25.
Definition STEEP_MAX_DEG : R := 35.
Definition CHUNK_DIST_M : R := 50.
Definition MAX_DRIVE_KM : R := 65.

(** ** Data *)

(** A sample [{ lat, lon, ele }]; [ele] is [null] when the track point has none. *)
Record point : Type := mkPoint { lat : R; lon : R; ele : option R }.

(** ** Loops *)

(** [for (let j = lo; ...; j++) s = body j s], run for [n] rounds. *)
Fixpoint for_steps {St : Type} (n : nat) (j : nat) (body : nat -> St -> St) (s : St) : St :=
  match n with
  | O => s
  | S n' => for_steps n' (S j) body (body j s)
  end.

(** [for (let j = lo; j <= hi; j++)], with [hi] possibly [-1]. *)
Definition for_upto {St : Type} (lo : nat) (hi : Z) (body : nat -> St -> St) (s : St) : St :=
  for_steps (Z.to_nat (hi + 1 - Z.of_nat lo)) lo body s.

(** A loop [for (let i = i0; i < arr.length; i++)] whose body reads [arr[i]],
    as a recursion on the entries still to read. *)
Fixpoint fold_from {A St : Type} (f : nat -> A -> St -> St) (i : nat) (l : list A) (s : St) : St :=
  match l with
  | [] => s
  | a :: r => fold_from f (S i) r (f i a s)
  end.

(** [arr.map((x, i) => f x i)] *)
Fixpoint mapi_from {A B : Type} (f : A -> nat -> B) (i : nat) (l : list A) : list B :=
  match l with
  | [] => []
  | a :: r => f a i :: mapi_from f (S i) r
  end.

Definition mapi {A B : Type} (f : A -> nat -> B) (l : list A) : list B := mapi_from f 0 l.

(** ** Elevation smoother *)

(** The body of the inner loop: [if (points[j].ele !== null) { sum += ...; count++ }].
    The loop bounds keep [j] inside the array. *)
Definition smoothBody (points : list point) (j : nat) (acc : R * nat) : R * nat :=
  match nth_error points j with
  | Some q =>
      match ele q with
      | Some e => (fst acc + e, S (snd acc))
      | None => acc
      end
  | None => acc
  end.

Definition smoothAt (points : list point) (window : nat) (p : point) (i : nat) : option R :=
  match ele p with
  | None => None
  | Some _ =>
      let lo := Z.to_nat (Z.max 0 (Z.of_nat i - Z.of_nat window)) in
      let hi := Z.min (Z.of_nat (length points) - 1) (Z.of_nat i + Z.of_nat window) in
      let acc := for_upto lo hi (smoothBody points) (0, O) in
      if (0 <? snd acc)%nat then Some (fst acc / INR (snd acc)) else None
  end.

Definition smoothElevation (points : list point) (window : nat) : list (option R) :=
  mapi (smoothAt points window) points.

(** *** The smoother as the specification words it

    The samples of the window of [i] are those with an index in
    [[max(0, i-W), min(n-1, i+W)]]; the output is the arithmetic mean of the
    non-null elevations among them, and null if there is none. *)

Definition in_window (n W i j : nat) : bool :=
  (Z.max 0 (Z.of_nat i - Z.of_nat W) <=? Z.of_nat j)%Z &&
  (Z.of_nat j <=? Z.min (Z.of_nat n - 1) (Z.of_nat i + Z.of_nat W))%Z.

Definition window_indices (n W i : nat) : list nat :=
  filter (in_window n W i) (seq 0 n).

Definition elevation_at (points : list point) (j : nat) : list R :=
  match nth_error points j with
  | Some q => match ele q with Some e => [e] | None => [] end
  | None => []
  end.

Definition window_elevations (points : list point) (W i : nat) : list R :=
  flat_map (elevation_at points) (window_indices (length points) W i).

Definition Rsum (l : list R) : R := fold_right Rplus 0 l.

Definition mean (l : list R) : option R :=
  match l with
  | [] => None
  | _ :: _ => Some (Rsum l / INR (length l))
  end.

Definition window_mean (points : list point) (W i : nat) : option R :=
  mean (window_elevations points W i).

(** ** Descent segment finder *)

Record segment : Type := mkSegment { peakI : nat; troughI : nat; drop : R }.

(** The locals of [findDescentSegments]. *)
Record finder : Type := mkFinder {
  f_peakI : nat; f_peakEle : R;
  f_troughI : nat; f_troughEle : R;
  f_segments : list segment
}.

(** [smoothEle[0] || 0]: the entry when it is a number, [0] when it is [null]
    or the array is empty. *)
Definition or_zero (v : option (option R)) : R :=
  match v with
  | Some (Some e) => e
  | _ => 0
  end.

Definition finder_init (smoothEle : list (option R)) : finder :=
  mkFinder 0 (or_zero (nth_error smoothEle 0)) 0 (or_zero (nth_error smoothEle 0)) [].

(** [segments.push({ peakI, troughI, drop: peakEle - troughEle })] under its guard. *)
Definition push_if_significant (st : finder) : list segment :=
  if Rleb MIN_DROP_M (f_peakEle st - f_troughEle st)
  then f_segments st ++ [mkSegment (f_peakI st) (f_troughI st) (f_peakEle st - f_troughEle st)]
  else f_segments st.

(** One round of the scan, [ele] being [smoothEle[i]]. *)
Definition finder_step (i : nat) (ele : option R) (st : finder) : finder :=
  match ele with
  | None => st
  | Some e =>
      if Rltb (f_peakEle st) e then
        mkFinder i e i e (f_segments st)
      else if Rltb e (f_troughEle st) then
        mkFinder (f_peakI st) (f_peakEle st) i e (f_segments st)
      else if Rltb (f_troughEle st + MIN_CLIMB_TO_RESET) e then
        mkFinder i e i e (push_if_significant st)
      else st
  end.

Definition finder_body (smoothEle : list (option R)) (i : nat) (st : finder) : finder :=
  match nth_error smoothEle i with
  | Some ele => finder_step i ele st
  | None => st
  end.

(** The state after the loop [for (let i = 1; i < smoothEle.length; i++)]. *)
Definition finder_scan (smoothEle : list (option R)) : finder :=
  for_steps (length smoothEle - 1) 1 (finder_body smoothEle) (finder_init smoothEle).

Definition findDescentSegments (smoothEle : list (option R)) : list segment :=
  push_if_significant (finder_scan smoothEle).

(** The scan as a recursion on the entries still to read, [i] the index of the
    first of them. *)
Definition scan_list (i : nat) (l : list (option R)) (st : finder) : finder :=
  fold_from finder_step i l st.

(** The first non-null sample of a series, with its index. *)
Fixpoint first_non_null_from (i : nat) (l : list (option R)) : option (nat * R) :=
  match l with
  | [] => None
  | Some e :: _ => Some (i, e)
  | None :: r => first_non_null_from (S i) r
  end.

Definition first_non_null (l : list (option R)) : option (nat * R) := first_non_null_from 0 l.

(** The elevation a segment end stands for: the sample at the index, a null
    sample counting as [0] as in [smoothEle[0] || 0]. *)
Definition sample_or_zero (smoothEle : list (option R)) (i : nat) : R :=
  or_zero (nth_error smoothEle i).

(** Segments in increasing index order, no two overlapping. *)
Definition segments_ordered (l : list segment) : Prop :=
  StronglySorted (fun a b => (troughI a < peakI b)%nat) l.

(** What the scan guarantees of a segment it emits: the trough lies after
    the peak and is a sample with an elevation; the peak is such a sample too,
    unless it is index 0; the drop is the difference of the two and reaches
    [MIN_DROP_M]. *)
Definition segment_ok (s : list (option R)) (g : segment) : Prop :=
  (peakI g < troughI g)%nat /\
  (exists t, nth_error s (troughI g) = Some (Some t)) /\
  (peakI g = 0%nat \/ exists p, nth_error s (peakI g) = Some (Some p)) /\
  drop g = sample_or_zero s (peakI g) - sample_or_zero s (troughI g) /\
  MIN_DROP_M <= drop g.

(** The invariant of the scan, [i] being the next index to read. *)
Record finder_inv (s : list (option R)) (i : nat) (st : finder) : Prop := mkFinderInv {
  inv_order : (f_peakI st <= f_troughI st < i)%nat;
  inv_peak : f_peakEle st = sample_or_zero s (f_peakI st);
  inv_peak_sample :
    f_peakI st = 0%nat \/ nth_error s (f_peakI st) = Some (Some (f_peakEle st));
  inv_trough :
    (f_troughI st = f_peakI st /\ f_troughEle st = f_peakEle st) \/
    ((f_peakI st < f_troughI st)%nat /\
     nth_error s (f_troughI st) = Some (Some (f_troughEle st)));
  inv_segments : Forall (segment_ok s) (f_segments st);
  inv_ordered : segments_ordered (f_segments st);
  inv_before : Forall (fun g => (troughI g < f_peakI st)%nat) (f_segments st)
}.



(** Monotone sequences of elevations. *)
Fixpoint weakly_decreasing (l : list R) : Prop :=
  match l with
  | x :: (y :: _) as r => y <= x /\ weakly_decreasing r
  | _ => True
  end.

Fixpoint strictly_decreasing (l : list R) : Prop :=
  match l with
  | x :: (y :: _) as r => y < x /\ strictly_decreasing r
  | _ => True
  end.

Fixpoint weakly_increasing (l : list R) : Prop :=
  match l with
  | x :: (y :: _) as r => x <= y /\ weakly_increasing r
  | _ => True
  end.

(** ** Faults

    Reading a field of [points[i]] outside the array raises a [TypeError], and
    an entry of [smoothEle] outside the array is [undefined], which arithmetic
    turns into [NaN].  Both are the one outcome [Fault]. *)

Inductive outcome (A : Type) : Type :=
| Fault : outcome A
| Done : A -> outcome A.

Arguments Fault {A}.
Arguments Done {A} _.

Definition bind {A B : Type} (c : outcome A) (k : A -> outcome B) : outcome B :=
  match c with
  | Fault => Fault
  | Done a => k a
  end.

Notation "x <- c ;; k" := (bind c (fun x => k))
  (at level 61, c at next level, right associativity).

Fixpoint for_stepsM {St : Type} (n : nat) (j : nat) (body : nat -> St -> outcome St) (s : St)
  : outcome St :=
  match n with
  | O => Done s
  | S n' => s' <- body j s ;; for_stepsM n' (S j) body s'
  end.

Definition for_uptoM {St : Type} (lo : nat) (hi : Z) (body : nat -> St -> outcome St) (s : St)
  : outcome St :=
  for_stepsM (Z.to_nat (hi + 1 - Z.of_nat lo)) lo body s.

(** [arr.forEach(x => ...)] over a state. *)
Fixpoint forEachM {A St : Type} (body : A -> St -> outcome St) (l : list A) (s : St)
  : outcome St :=
  match l with
  | [] => Done s
  | a :: r => s' <- body a s ;; forEachM body r s'
  end.

(** [points[i]], about to be dereferenced. *)
Definition get_point (points : list point) (i : nat) : outcome point :=
  match nth_error points i with
  | Some p => Done p
  | None => Fault
  end.

(** [smoothEle[i]], kept as it is. *)
Definition read_ele (smoothEle : list (option R)) (i : nat) : outcome (option R) :=
  match nth_error smoothEle i with
  | Some v => Done v
  | None => Fault
  end.

(** [smoothEle[i]] as an operand of arithmetic or of [Math.round]: [null] is [0]. *)
Definition num_ele (smoothEle : list (option R)) (i : nat) : outcome R :=
  match nth_error smoothEle i with
  | Some (Some e) => Done e
  | Some None => Done 0
  | None => Fault
  end.

(** ** Distances *)

Definition haversineKm (lat1 lon1 lat2 lon2 : R) : R :=
  let R0 := 6371 in
  let dLat := (lat2 - lat1) * PI / 180 in
  let dLon := (lon2 - lon1) * PI / 180 in
  let a := sin (dLat / 2) ^ 2 +
           cos (lat1 * PI / 180) * cos (lat2 * PI / 180) * sin (dLon / 2) ^ 2 in
  R0 * 2 * atan2 (sqrt a) (sqrt (1 - a)).

(** The hop between two samples, in metres. *)
Definition hop_m (p q : point) : R := haversineKm (lat p) (lon p) (lat q) (lon q) * 1000.

(** [haversineKm(points[i - 1].lat, ..., points[i].lon) * 1000] *)
Definition segDist_at (points : list point) (i : nat) : outcome R :=
  p <- get_point points (i - 1) ;;
  q <- get_point points i ;;
  Done (hop_m p q).

(** ** Steep segment analyzer *)

Record chunk : Type := mkChunk {
  startI : nat; endI : nat; dist : R; c_drop : R; grad : R
}.

Record chunker : Type := mkChunker {
  k_chunks : list chunk; k_chunkStartI : nat; k_chunkDist : R
}.

Definition chunk_body (points : list point) (smoothEle : list (option R))
    (i : nat) (st : chunker) : outcome chunker :=
  segDist <- segDist_at points i ;;
  if Rltb 2000 segDist then Done st
  else
    let chunkDist := k_chunkDist st + segDist in
    if Rleb CHUNK_DIST_M chunkDist then
      startEle <- read_ele smoothEle (k_chunkStartI st) ;;
      endEle <- read_ele smoothEle i ;;
      let chunks :=
        match startEle, endEle with
        | Some s, Some e =>
            if Rltb 0 chunkDist then
              k_chunks st ++
                [mkChunk (k_chunkStartI st) i chunkDist (s - e)
                   (atan (Rmax 0 (s - e) / chunkDist) * (180 / PI))]
            else k_chunks st
        | _, _ => k_chunks st
        end in
      Done (mkChunker chunks i 0)
    else Done (mkChunker (k_chunks st) (k_chunkStartI st) chunkDist).

Definition build_chunks (points : list point) (smoothEle : list (option R))
    (peakI troughI : nat) : outcome (list chunk) :=
  st <- for_uptoM (peakI + 1) (Z.of_nat troughI) (chunk_body points smoothEle)
          (mkChunker [] peakI 0) ;;
  Done (k_chunks st).

Definition in_band (c : chunk) : bool :=
  Rleb STEEP_MIN_DEG (grad c) && Rleb (grad c) STEEP_MAX_DEG.

Record runs : Type := mkRuns {
  bestStart : nat; bestLen : nat; curStart : nat; curLen : nat
}.

Definition run_step (c : nat) (ch : chunk) (st : runs) : runs :=
  if in_band ch then
    let curStart' := if (curLen st =? 0)%nat then c else curStart st in
    let curLen' := S (curLen st) in
    if (bestLen st <? curLen')%nat
    then mkRuns curStart' curLen' curStart' curLen'
    else mkRuns (bestStart st) (bestLen st) curStart' curLen'
  else mkRuns (bestStart st) (bestLen st) (curStart st) 0.

Definition run_body (chunks : list chunk) (c : nat) (st : runs) : runs :=
  match nth_error chunks c with
  | Some ch => run_step c ch st
  | None => st
  end.

(** The state after [for (let c = 0; c < chunks.length; c++)]. *)
Definition longest_run (chunks : list chunk) : runs :=
  for_steps (length chunks) 0 (run_body chunks) (mkRuns 0 0 0 0).

(** The same scan as a recursion on the chunks still to read. *)
Definition run_list (c : nat) (l : list chunk) (st : runs) : runs :=
  fold_from run_step c l st.

(** [arr.slice(from, from + len)] *)
Definition slice {A : Type} (from len : nat) (l : list A) : list A :=
  firstn len (skipn from l).

Record steep : Type := mkSteep {
  s_verticalDrop : R; s_horizDistM : R; s_avgGradientDeg : R;
  s_startEle : R; s_endEle : R
}.

Definition findLongestSteepSegment (points : list point) (smoothEle : list (option R))
    (peakI troughI : nat) : outcome (option steep) :=
  chunks <- build_chunks points smoothEle peakI troughI ;;
  let st := longest_run chunks in
  if (bestLen st =? 0)%nat then Done None
  else
    let steepChunks := slice (bestStart st) (bestLen st) chunks in
    let totalDist := fold_left (fun s c => s + dist c) steepChunks 0 in
    let totalDrop := fold_left (fun s c => s + c_drop c) steepChunks 0 in
    let avgGrad := atan (totalDrop / totalDist) * (180 / PI) in
    match nth_error steepChunks 0, nth_error steepChunks (length steepChunks - 1) with
    | Some first, Some last =>
        startEle <- num_ele smoothEle (startI first) ;;
        endEle <- num_ele smoothEle (endI last) ;;
        Done (Some (mkSteep (js_round totalDrop) (js_round totalDist)
                      (js_round (avgGrad * 10) / 10)
                      (js_round startEle) (js_round endEle)))
    | _, _ => Fault
    end.

(** *** Runs of in-band chunks, as the specification words them *)

(** The chunks [s .. s+n-1] exist and all lie in the steep band. *)
Definition steep_run (chunks : list chunk) (s n : nat) : Prop :=
  (s + n <= length chunks)%nat /\
  forall k, (s <= k < s + n)%nat -> exists ch, nth_error chunks k = Some ch /\ in_band ch = true.

(** The invariant of the scan for the longest run, [c] being the next chunk
    to read: the best run so far is a run inside the chunks read, no run
    inside them is longer, no run of that length starts earlier; the current
    run is the longest run that ends at the last chunk read. *)
Record runs_inv (chunks : list chunk) (c : nat) (st : runs) : Prop := mkRunsInv {
  ri_best : steep_run chunks (bestStart st) (bestLen st);
  ri_best_in : (bestStart st + bestLen st <= c)%nat;
  ri_longest : forall s n, steep_run chunks s n -> (s + n <= c)%nat -> (n <= bestLen st)%nat;
  ri_earliest : forall s,
      steep_run chunks s (bestLen st) -> (s + bestLen st <= c)%nat -> (0 < bestLen st)%nat ->
      (bestStart st <= s)%nat;
  ri_cur : steep_run chunks (c - curLen st) (curLen st);
  ri_cur_in : (curLen st <= c)%nat;
  ri_cur_start : (0 < curLen st)%nat -> curStart st = (c - curLen st)%nat;
  ri_cur_max : forall s n, steep_run chunks s n -> (s + n = c)%nat -> (n <= curLen st)%nat
}.

(** What the chunking loop gives every chunk it builds on the span from
    [peakI] to [troughI]: its ends lie in the span, the start before the end;
    both ends are samples with an elevation and the drop is their difference;
    the accumulated distance reaches [CHUNK_DIST_M]; the gradient is the one
    of the drop, an ascent counting as level, over that distance. *)
Definition chunk_wf (smoothEle : list (option R)) (peakI troughI : nat) (ch : chunk) : Prop :=
  (peakI <= startI ch < endI ch)%nat /\ (endI ch <= troughI)%nat /\
  (exists s e, nth_error smoothEle (startI ch) = Some (Some s) /\
               nth_error smoothEle (endI ch) = Some (Some e) /\ c_drop ch = s - e) /\
  CHUNK_DIST_M <= dist ch /\
  grad ch = atan (Rmax 0 (c_drop ch) / dist ch) * (180 / PI).

(** Both ends of a chunk are indices of a series of length [n]. *)
Definition chunk_in_range (n : nat) (ch : chunk) : Prop :=
  (startI ch < n)%nat /\ (endI ch < n)%nat.

(** ** Descent evaluator *)

Record analysis : Type := mkAnalysis {
  verticalDrop : R; horizDistM : R; avgGradientDeg : R;
  peakEle : R; troughEle : R; steepSegment : option steep
}.

Definition dist_body (points : list point) (i : nat) (horizDistM : R) : outcome R :=
  segDist <- segDist_at points i ;;
  if Rltb 2000 segDist then Done horizDistM
  else Done (horizDistM + segDist).

Definition analyzeDescentSegment (points : list point) (smoothEle : list (option R))
    (peakI troughI : nat) : outcome (option analysis) :=
  horizDistM <- for_uptoM (peakI + 1) (Z.of_nat troughI) (dist_body points) 0 ;;
  if Rltb horizDistM 10 then Done None
  else
    pe <- num_ele smoothEle peakI ;;
    te <- num_ele smoothEle troughI ;;
    let verticalDrop := pe - te in
    let avgGradientDeg := atan (verticalDrop / horizDistM) * (180 / PI) in
    steepSegment <- findLongestSteepSegment points smoothEle peakI troughI ;;
    Done (Some (mkAnalysis (js_round verticalDrop) (js_round horizDistM)
                  (js_round (avgGradientDeg * 10) / 10)
                  (js_round pe) (js_round te) steepSegment)).

(** *** The usable distance of a span, as the specification words it *)

(** The point-to-point hops of a sequence of samples. *)
Fixpoint hops (l : list point) : list R :=
  match l with
  | p :: (q :: _) as r => hop_m p q :: hops r
  | _ => []
  end.

(** The sum of the hops over the samples [peakI .. troughI], a hop of more
    than 2000 m left out. *)
Definition usable_distance (points : list point) (peakI troughI : nat) : R :=
  Rsum (filter (fun d => Rleb d 2000) (hops (slice peakI (S troughI - peakI) points))).

(** ** Scorer *)

Definition descentScore (a : option analysis) : R :=
  match a with
  | None => 0
  | Some a =>
      let score := 0 in
      let score := score + Rmin (verticalDrop a) 1200 / 12 in
      let gradDiff := Rabs (avgGradientDeg a - 30) in
      let score := score + Rmax 0 (50 - gradDiff * 5) in
      let score :=
        match steepSegment a with
        | Some ss => score + Rmin (s_verticalDrop ss) 500 / 10
        | None => score
        end in
      js_round (score * 10) / 10
  end.

(** ** Route aggregators, one route at a time *)

(** The body of [segments.forEach(seg => ...)]: evaluate the segment, score
    it, keep it when it beats the best so far.  The three loops of the source
    have this same body. *)
Definition best_body (points : list point) (eles : list (option R))
    (seg : segment) (best : option analysis * R) : outcome (option analysis * R) :=
  a <- analyzeDescentSegment points eles (peakI seg) (troughI seg) ;;
  match a with
  | None => Done best
  | Some an =>
      let score := descentScore (Some an) in
      if Rltb (snd best) score then Done (Some an, score) else Done best
  end.

(** [let bestAnalysis = null; let bestScore = 0; segments.forEach(...)] *)
Definition best_of_segments (points : list point) (eles : list (option R))
    (segments : list segment) : outcome (option analysis * R) :=
  forEachM (best_body points eles) segments (None, 0).

(** Segmentation, evaluation and scoring of one point sequence with its
    elevation array. *)
Definition descent_pipeline (points : list point) (eles : list (option R))
  : outcome (option analysis * R) :=
  best_of_segments points eles (findDescentSegments eles).

(** Where a result comes from, with what the source records about it. *)
Inductive provenance : Type :=
| FromGpx (filename : String.string) (date : option String.string)
| FromTopptur (id place ates : String.string) (distFromTromso : R).

Record scored : Type := mkScored {
  r_name : String.string; r_source : provenance; r_descent : analysis; r_score : R
}.

(** What [parseGpxPoints] hands over for one file. *)
Record gpx_track : Type := mkGpx {
  g_points : list point; g_name : String.string;
  g_date : option String.string; g_filename : String.string
}.

(** The body of [gpxFiles.forEach] in [analyzeGpxTracks]; [None] is a route
    that adds nothing to [results]. *)
Definition analyzeGpxTrack (f : gpx_track) : outcome (option scored) :=
  let points := g_points f in
  if (length points <? 50)%nat then Done None
  else
    let smoothEle := smoothElevation points SMOOTH_WINDOW in
    let segments := findDescentSegments smoothEle in
    if (length segments =? 0)%nat then Done None
    else
      best <- best_of_segments points smoothEle segments ;;
      match fst best with
      | Some a => Done (Some (mkScored (g_name f) (FromGpx (g_filename f) (g_date f)) a (snd best)))
      | None => Done None
      end.

(** The third entry of a catalog coordinate [[lon, lat, ele]]. *)
Inductive js_value : Type :=
| JUndefined : js_value
| JNull : js_value
| JNumber : R -> js_value.

Record coord : Type := mkCoord { c_lon : R; c_lat : R; c_ele : js_value }.

Record tour : Type := mkTour {
  t_coordinates : option (list coord);
  t_name : String.string; t_id : String.string;
  t_place : String.string; t_ates : String.string
}.

(** [c[2] || 0] *)
Definition js_or_zero (v : js_value) : R :=
  match v with
  | JNumber r => r
  | _ => 0
  end.

(** [c => ({ lat: c[1], lon: c[0], ele: c[2] || 0 })] *)
Definition to_point (c : coord) : point :=
  mkPoint (c_lat c) (c_lon c) (Some (js_or_zero (c_ele c))).

Definition TROMSO_minLat : R := 69.3.
Definition TROMSO_maxLat : R := 70.0.
Definition TROMSO_minLon : R := 18.0.
Definition TROMSO_maxLon : R := 20.5.
Definition TROMSO_lat : R := 69.6492.
Definition TROMSO_lon : R := 18.9553.

Definition outside_bbox (c : coord) : bool :=
  Rltb (c_lat c) TROMSO_minLat || Rltb TROMSO_maxLat (c_lat c) ||
  Rltb (c_lon c) TROMSO_minLon || Rltb TROMSO_maxLon (c_lon c).

(** The part of the body of [allTours.forEach] from [const segments = ...] to
    the end of the two loops: the best analysis and its score. *)
Definition tour_descent (points : list point) : outcome (option analysis * R) :=
  let eleArr := map ele points in
  let segments := findDescentSegments eleArr in
  if (length segments =? 0)%nat then
    let revPoints := rev points in
    let revEle := map ele revPoints in
    let revSegments := findDescentSegments revEle in
    best_of_segments revPoints revEle revSegments
  else
    best_of_segments points eleArr segments.

(** The body of [allTours.forEach] in [analyzeToppturTours]. *)
Definition analyzeToppturTour (t : tour) : outcome (option scored) :=
  match t_coordinates t with
  | None => Done None
  | Some coordinates =>
      if (length coordinates <? 5)%nat then Done None
      else
        match coordinates with
        | [] => Fault
        | c0 :: _ =>
            if outside_bbox c0 then Done None
            else
              let points := map to_point coordinates in
              p0 <- get_point points 0 ;;
              let distFromTromso := haversineKm TROMSO_lat TROMSO_lon (lat p0) (lon p0) in
              if Rltb MAX_DRIVE_KM distFromTromso then Done None
              else
                best <- tour_descent points ;;
                match fst best with
                | Some a =>
                    Done (Some (mkScored (t_name t)
                                  (FromTopptur (t_id t) (t_place t) (t_ates t)
                                     (js_round (distFromTromso * 10) / 10))
                                  a (snd best)))
                | None => Done None
                end
        end
  end.

(** [results.push] over all routes of a source: the results in route order. *)
Fixpoint collect {A B : Type} (f : A -> outcome (option B)) (l : list A) : outcome (list B) :=
  match l with
  | [] => Done []
  | a :: r =>
      x <- f a ;;
      rest <- collect f r ;;
      Done (match x with Some b => b :: rest | None => rest end)
  end.

Definition analyzeGpxTracks (files : list gpx_track) : outcome (list scored) :=
  collect analyzeGpxTrack files.

Definition analyzeToppturTours (allTours : list tour) : outcome (list scored) :=
  collect analyzeToppturTour allTours.

(** ** Ranking

    [main] gathers the results of the sources its flags leave on, sorts them
    with [allResults.sort((a, b) => b.score - a.score)] and hands them to the
    table and to the JSON dump.  The sort of the runtime is stable; with this
    comparator its result is the one of the insertion below: best score
    first, equal scores in the order they came in. *)







(** ** Sample inputs *)

(** A sample without elevation next to one at 100 m. *)
Definition null_then_100 : list point := [mkPoint 0 0 None; mkPoint 0 0 (Some 100)].

(** Four chunks: in the band, below it, in the band, in the band. *)
Definition four_chunks : list chunk :=
  [mkChunk 0 3 60 30 30; mkChunk 3 6 60 10 10; mkChunk 6 9 60 30 30; mkChunk 9 12 60 30 30].

(** A climb of three samples: forward segmentation finds nothing. *)
Definition climb3 : list point :=
  [mkPoint 69.5 19 (Some 100); mkPoint 69.5 19 (Some 300); mkPoint 69.5 19 (Some 600)].

(** Two samples 0.001 degrees apart on one meridian, about 111 m, the first
    higher than the second by that distance over the square root of 3: a
    slope of 30 degrees. *)
Definition slope30_hop : R := 6371 * ((69.001 - 69) * PI / 180) * 1000.

Definition slope30_points : list point :=
  [mkPoint 69 19 (Some (slope30_hop / sqrt 3)); mkPoint 69.001 19 (Some 0)].

(** The samples of [five_point_tour]. *)
Definition five_points : list point :=
  [mkPoint 69.6492 18.9553 (Some 300); mkPoint 69.6494 18.9553 (Some 0);
   mkPoint 69.6494 18.9553 (Some 0); mkPoint 69.6494 18.9553 (Some 0);
   mkPoint 69.6494 18.9553 (Some 0)].

(** A catalog route of five coordinates on one meridian: it starts at the
    reference point at 300 m and goes 0.0002 degrees north to 0 m, where it
    stays. *)
Definition five_point_tour : tour :=
  mkTour
    (Some [mkCoord 18.9553 69.6492 (JNumber 300);
           mkCoord 18.9553 69.6494 (JNumber 0);
           mkCoord 18.9553 69.6494 JUndefined;
           mkCoord 18.9553 69.6494 JNull;
           mkCoord 18.9553 69.6494 (JNumber 0)])
    String.EmptyString String.EmptyString String.EmptyString String.EmptyString.

(** * Properties *)

(** ** Comparisons *)

Lemma Rltb_true x y : x < y -> Rltb x y = true.
Proof. intros H. unfold Rltb. destruct (Rlt_dec x y); [reflexivity | contradiction]. Qed.

Lemma Rltb_false x y : y <= x -> Rltb x y = false.
Proof. intros H. unfold Rltb. destruct (Rlt_dec x y); [lra | reflexivity]. Qed.

Lemma Rleb_true x y : x <= y -> Rleb x y = true.
Proof. intros H. unfold Rleb. destruct (Rle_dec x y); [reflexivity | contradiction]. Qed.

Lemma Rleb_false x y : y < x -> Rleb x y = false.
Proof. intros H. unfold Rleb. destruct (Rle_dec x y); [lra | reflexivity]. Qed.

Lemma Rltb_spec x y : reflect (x < y) (Rltb x y).
Proof. unfold Rltb. destruct (Rlt_dec x y); constructor; assumption. Qed.

Lemma Rleb_spec x y : reflect (x <= y) (Rleb x y).
Proof. unfold Rleb. destruct (Rle_dec x y); constructor; assumption. Qed.

(** Settles one comparison of the goal that [lra] can decide. *)
Ltac decide_one :=
  match goal with
  | |- context [Rltb ?x ?y] =>
      first [ rewrite (Rltb_true x y) by lra | rewrite (Rltb_false x y) by lra ]
  | |- context [Rleb ?x ?y] =>
      first [ rewrite (Rleb_true x y) by lra | rewrite (Rleb_false x y) by lra ]
  end.

Ltac decide_cmp := repeat decide_one.

(** ** Lists and loops *)

Lemma nth_error_mapi_from {A B : Type} (f : A -> nat -> B) (l : list A) :
  forall k i, nth_error (mapi_from f k l) i = option_map (fun a => f a (k + i)%nat) (nth_error l i).
Proof.
  induction l as [|a l IH]; intros k i.
  - destruct i; reflexivity.
  - destruct i as [|i]; simpl.
    + now rewrite Nat.add_0_r.
    + rewrite IH. now rewrite Nat.add_succ_r.
Qed.

Lemma length_mapi_from {A B : Type} (f : A -> nat -> B) (l : list A) :
  forall k, length (mapi_from f k l) = length l.
Proof. induction l as [|a l IH]; intros k; simpl; [reflexivity | now rewrite IH]. Qed.

Lemma filter_range (a b n : nat) :
  filter (fun j => (a <=? j)%nat && (j <=? b)%nat) (seq 0 n) = seq a (Nat.min (S b) n - a).
Proof.
  induction n as [|n IH].
  - simpl. destruct (Nat.min (S b) 0 - a)%nat eqn:E; [reflexivity | lia].
  - rewrite seq_S, filter_app, IH. cbn [filter Nat.add].
    destruct (Nat.leb_spec a n) as [Han|Han]; destruct (Nat.leb_spec n b) as [Hnb|Hnb];
      cbn [andb].
    + replace (Nat.min (S b) n) with n by lia.
      replace (Nat.min (S b) (S n) - a)%nat with (S (n - a)) by lia.
      rewrite seq_S. do 2 f_equal. lia.
    + rewrite app_nil_r. f_equal. lia.
    + rewrite app_nil_r. f_equal. lia.
    + rewrite app_nil_r. f_equal. lia.
Qed.

(** ** Elevation smoother *)

Lemma smoothBody_acc points j s c :
  smoothBody points j (s, c) =
  (s + Rsum (elevation_at points j), (c + length (elevation_at points j))%nat).
Proof.
  unfold smoothBody, elevation_at.
  destruct (nth_error points j) as [q|]; [destruct (ele q) as [e|]|]; simpl;
    f_equal; try lra; lia.
Qed.

Lemma Rsum_app l1 l2 : Rsum (l1 ++ l2) = Rsum l1 + Rsum l2.
Proof. induction l1 as [|x l1 IH]; simpl; [lra | rewrite IH; lra]. Qed.

Lemma for_steps_smooth points n :
  forall lo s c,
    for_steps n lo (smoothBody points) (s, c) =
    (s + Rsum (flat_map (elevation_at points) (seq lo n)),
     (c + length (flat_map (elevation_at points) (seq lo n)))%nat).
Proof.
  induction n as [|n IH]; intros lo s c; simpl.
  - f_equal; [lra | lia].
  - rewrite smoothBody_acc, IH, Rsum_app, length_app. f_equal; [lra | lia].
Qed.

Lemma window_indices_seq n W i :
  (i < n)%nat ->
  window_indices n W i =
  seq (Z.to_nat (Z.max 0 (Z.of_nat i - Z.of_nat W)))
      (Z.to_nat (Z.min (Z.of_nat n - 1) (Z.of_nat i + Z.of_nat W) + 1
                 - Z.of_nat (Z.to_nat (Z.max 0 (Z.of_nat i - Z.of_nat W))))).
Proof.
  intros Hi. unfold window_indices.
  set (lo := Z.to_nat (Z.max 0 (Z.of_nat i - Z.of_nat W))).
  set (hi := Z.to_nat (Z.min (Z.of_nat n - 1) (Z.of_nat i + Z.of_nat W))).
  rewrite (filter_ext (in_window n W i) (fun j => (lo <=? j)%nat && (j <=? hi)%nat)).
  - rewrite filter_range. f_equal. unfold lo, hi. lia.
  - intros j. unfold in_window, lo, hi. f_equal.
    + destruct (Z.leb_spec (Z.max 0 (Z.of_nat i - Z.of_nat W)) (Z.of_nat j));
        destruct (Nat.leb_spec (Z.to_nat (Z.max 0 (Z.of_nat i - Z.of_nat W))) j);
        try reflexivity; lia.
    + destruct (Z.leb_spec (Z.of_nat j) (Z.min (Z.of_nat n - 1) (Z.of_nat i + Z.of_nat W)));
        destruct (Nat.leb_spec j (Z.to_nat (Z.min (Z.of_nat n - 1) (Z.of_nat i + Z.of_nat W))));
        try reflexivity; lia.
Qed.

Lemma smoothAt_window_mean points W p i :
  nth_error points i = Some p ->
  smoothAt points W p i =
  match ele p with
  | None => None
  | Some _ => window_mean points W i
  end.
Proof.
  intros Hp. unfold smoothAt. destruct (ele p) as [e|]; [|reflexivity].
  assert (Hi : (i < length points)%nat) by (apply nth_error_Some; congruence).
  unfold for_upto. rewrite for_steps_smooth. simpl fst. simpl snd.
  unfold window_mean, window_elevations. rewrite (window_indices_seq _ W _ Hi).
  destruct (flat_map _ _) as [|x l]; simpl length; [reflexivity|].
  cbn [Nat.ltb Nat.leb Nat.add mean]. f_equal. rewrite Rplus_0_l. reflexivity.
Qed.

Lemma in_window_self n W i : (i < n)%nat -> in_window n W i i = true.
Proof.
  intros Hi. unfold in_window. apply andb_true_intro. split; apply Z.leb_le; lia.
Qed.

Lemma window_mean_own points W i p e :
  nth_error points i = Some p -> ele p = Some e -> window_mean points W i <> None.
Proof.
  intros Hp He. unfold window_mean, window_elevations.
  assert (Hi : (i < length points)%nat) by (apply nth_error_Some; congruence).
  assert (Hin : In e (flat_map (elevation_at points) (window_indices (length points) W i))).
  { apply in_flat_map. exists i. split.
    - unfold window_indices. apply filter_In. split; [apply in_seq; lia | now apply in_window_self].
    - unfold elevation_at. rewrite Hp, He. now left. }
  destruct (flat_map _ _); [contradiction | discriminate].
Qed.

(** *** C1 *)

(** C1 (as amended).  For every point sequence, half-window [W] (10 in the
    program) and index [i]: the smoother's output at [i] is null when the
    sample's own elevation is null, and otherwise the arithmetic mean of the
    non-null elevations among the samples [max(0, i-W) .. min(n-1, i+W)];
    the output is null exactly when the sample's own elevation is null. *)
Theorem smoothElevation_spec (points : list point) (W i : nat) (p : point) :
  nth_error points i = Some p ->
  nth_error (smoothElevation points W) i =
    Some (match ele p with None => None | Some _ => window_mean points W i end)
  /\ (nth_error (smoothElevation points W) i = Some None <-> ele p = None).
Proof.
  intros Hp.
  assert (Hout : nth_error (smoothElevation points W) i =
                 Some (match ele p with None => None | Some _ => window_mean points W i end)).
  { unfold smoothElevation, mapi. rewrite nth_error_mapi_from, Hp. simpl.
    now rewrite (smoothAt_window_mean _ W _ _ Hp). }
  split; [exact Hout|].
  rewrite Hout. destruct (ele p) as [e|] eqn:He.
  - split; [|discriminate]. intros H. injection H as H.
    now apply (window_mean_own points W i p e Hp He) in H.
  - split; reflexivity.
Qed.

Lemma smoothElevation_spec_witness :
  nth_error (smoothElevation null_then_100 SMOOTH_WINDOW) 1 =
    Some (window_mean null_then_100 SMOOTH_WINDOW 1)
  /\ (nth_error (smoothElevation null_then_100 SMOOTH_WINDOW) 1 = Some None <-> Some 100 = None).
Proof.
  exact (smoothElevation_spec null_then_100 SMOOTH_WINDOW 1 (mkPoint 0 0 (Some 100)) eq_refl).
Defined.

(** The claim as worded fails: the sample at index 0 has no elevation, its
    neighbour at index 1 lies in its window with elevation 100, the window
    mean is 100, and yet the output at index 0 is null. *)
Lemma smoothElevation_null_sample_stays_null :
  nth_error (smoothElevation null_then_100 SMOOTH_WINDOW) 0 = Some None
  /\ window_mean null_then_100 SMOOTH_WINDOW 0 = Some 100.
Proof.
  split; [reflexivity|].
  unfold window_mean, window_elevations, window_indices, null_then_100, mean. simpl.
  f_equal. lra.
Qed.

(** With a half-window of 1: the ends average two samples, the null sample
    stays null and is left out of its neighbours' means. *)
Example smoothElevation_trace :
  smoothElevation
    [mkPoint 0 0 (Some 100); mkPoint 0 0 (Some 200); mkPoint 0 0 None; mkPoint 0 0 (Some 400)] 1
  = [Some 150; Some 150; None; Some 400].
Proof.
  unfold smoothElevation, mapi. cbn [mapi_from]. unfold smoothAt, for_upto.
  cbn [ele length]. simpl. repeat f_equal; lra.
Qed.

(** ** Descent segment finder *)

Lemma for_steps_fold_from {A St : Type} (f : nat -> A -> St -> St) (l : list A) :
  forall pre st,
    for_steps (length l) (length pre)
      (fun j s => match nth_error (pre ++ l) j with Some x => f j x s | None => s end) st
    = fold_from f (length pre) l st.
Proof.
  induction l as [|a l IH]; intros pre st; [reflexivity|].
  cbn [length for_steps fold_from].
  rewrite nth_error_app2 by lia. rewrite Nat.sub_diag. cbn [nth_error].
  specialize (IH (pre ++ [a])). rewrite <- app_assoc, length_app in IH. cbn [app length] in IH.
  rewrite Nat.add_1_r in IH. apply IH.
Qed.

Lemma fold_from_cons {A St : Type} (f : nat -> A -> St -> St) i a r s :
  fold_from f i (a :: r) s = fold_from f (S i) r (f i a s).
Proof. reflexivity. Qed.

Lemma finder_scan_list s : finder_scan s = scan_list 1 (tl s) (finder_init s).
Proof.
  unfold finder_scan, scan_list. destruct s as [|x r]; [reflexivity|].
  replace (length (x :: r) - 1)%nat with (length r) by (cbn [length]; lia).
  exact (for_steps_fold_from finder_step r [x] (finder_init (x :: r))).
Qed.

Lemma scan_list_app l1 : forall i l2 st,
  scan_list i (l1 ++ l2) st = scan_list (i + length l1) l2 (scan_list i l1 st).
Proof.
  unfold scan_list. induction l1 as [|a l1 IH]; intros i l2 st; cbn [app fold_from length].
  - now rewrite Nat.add_0_r.
  - rewrite IH. now rewrite Nat.add_succ_r.
Qed.

Lemma first_non_null_head s e : nth_error s 0 = Some (Some e) -> first_non_null s = Some (0%nat, e).
Proof. destruct s as [|[x|] r]; cbn; intros H; congruence. Qed.

(** *** C3 *)

(** C3 (as amended).  The finder starts with both the running peak and the
    running trough at index 0, with the elevation of sample 0 when that sample
    has one and with 0 otherwise; so the two start at the first non-null
    sample when that sample is the first of the series.  A null elevation met
    during the scan leaves the state as it is, and the scan goes on behind it
    from that same state. *)
Theorem finder_initial_state_and_nulls :
  (forall s, finder_init s = mkFinder 0 (sample_or_zero s 0) 0 (sample_or_zero s 0) [])
  /\ (forall s e, nth_error s 0 = Some (Some e) ->
        first_non_null s = Some (0%nat, e) /\ finder_init s = mkFinder 0 e 0 e [])
  /\ (forall i st, finder_step i None st = st)
  /\ (forall i l1 l2 st,
        scan_list i (l1 ++ None :: l2) st = scan_list (i + length l1 + 1) l2 (scan_list i l1 st)).
Proof.
  split; [reflexivity|]. split; [|split; [reflexivity|]].
  - intros s e H. split; [now apply first_non_null_head|].
    unfold finder_init. now rewrite H.
  - intros i l1 l2 st. rewrite scan_list_app. unfold scan_list at 1. cbn [fold_from finder_step].
    now rewrite Nat.add_1_r.
Qed.

Lemma finder_initial_state_and_nulls_witness :
  first_non_null [Some 500; None; Some 200] = Some (0%nat, 500)
  /\ finder_init [Some 500; None; Some 200] = mkFinder 0 500 0 500 [].
Proof.
  exact (proj1 (proj2 finder_initial_state_and_nulls) [Some 500; None; Some 200] 500 eq_refl).
Defined.

(** Evaluates the finder on a series of numerals. *)
Ltac run_finder :=
  unfold findDescentSegments; rewrite finder_scan_list;
  unfold scan_list, finder_init; cbn [tl nth_error or_zero];
  repeat (rewrite fold_from_cons;
          unfold finder_step, push_if_significant, MIN_DROP_M, MIN_CLIMB_TO_RESET;
          cbn [f_peakI f_peakEle f_troughI f_troughEle f_segments];
          decide_cmp;
          cbn [f_peakI f_peakEle f_troughI f_troughEle f_segments app]);
  cbn [fold_from];
  unfold push_if_significant, MIN_DROP_M;
  cbn [f_peakI f_peakEle f_troughI f_troughEle f_segments];
  decide_cmp;
  cbn [f_peakI f_peakEle f_troughI f_troughEle f_segments app].

(** The claim as worded fails on a series that starts with a null: its first
    non-null sample is the one at index 1, and the finder starts at index 0
    with elevation 0.  The start shows in the output when the series goes
    below -200: the segment's peak is the null sample. *)
Lemma finder_init_not_first_non_null :
  first_non_null [None; Some 500] = Some (1%nat, 500)
  /\ finder_init [None; Some 500] = mkFinder 0 0 0 0 []
  /\ first_non_null [None; Some (-250)] = Some (1%nat, -250)
  /\ findDescentSegments [None; Some (-250)] = [mkSegment 0 1 250].
Proof.
  repeat split.
  run_finder. do 2 f_equal. lra.
Qed.

(** A climb to 500, a descent to 200, a re-ascent of 120 that closes the
    segment, a second descent of 220 that the climb to 600 wipes out. *)
Example findDescentSegments_trace :
  findDescentSegments
    [Some 100; Some 500; Some 450; None; Some 200; Some 320; Some 100; Some 600]
  = [mkSegment 1 4 (500 - 200)].
Proof. run_finder. reflexivity. Qed.

(** *** The invariant of the scan *)

Lemma StronglySorted_snoc {A : Type} (P : A -> A -> Prop) (l : list A) (x : A) :
  StronglySorted P l -> Forall (fun a => P a x) l -> StronglySorted P (l ++ [x]).
Proof.
  induction 1 as [|a l Hl IH Ha]; intros Hx; cbn [app].
  - constructor; constructor.
  - inversion Hx as [|? ? Hax Hlx]; subst. constructor.
    + now apply IH.
    + apply Forall_app. split; [assumption | constructor; [assumption | constructor]].
Qed.

Lemma sample_or_zero_some s i e : nth_error s i = Some (Some e) -> sample_or_zero s i = e.
Proof. unfold sample_or_zero. now intros ->. Qed.

Lemma finder_inv_init s : finder_inv s 1 (finder_init s).
Proof.
  constructor; cbn.
  - lia.
  - reflexivity.
  - now left.
  - left. split; reflexivity.
  - constructor.
  - constructor.
  - constructor.
Qed.

(** What [push_if_significant] yields in a state that satisfies the invariant. *)
Lemma finder_inv_push s i st :
  finder_inv s i st ->
  Forall (segment_ok s) (push_if_significant st)
  /\ segments_ordered (push_if_significant st)
  /\ Forall (fun g => (troughI g < i)%nat) (push_if_significant st).
Proof.
  intros [Hord Hpk Hps Htr Hsegs Hsorted Hbefore].
  assert (Hlt : Forall (fun g => (troughI g < i)%nat) (f_segments st)).
  { eapply Forall_impl; [|exact Hbefore]. cbn. intros g Hg. lia. }
  unfold push_if_significant. destruct (Rleb_spec MIN_DROP_M (f_peakEle st - f_troughEle st)) as [Hd|Hd].
  - destruct Htr as [[_ Heq]|[Hlt' Hts]].
    + unfold MIN_DROP_M in Hd. lra.
    + repeat split.
      * apply Forall_app. split; [assumption|]. constructor; [|constructor].
        unfold segment_ok. cbn [peakI troughI drop].
        repeat split; try assumption.
        -- eauto.
        -- destruct Hps as [H0|Hp]; [now left | right; eauto].
        -- rewrite (sample_or_zero_some _ _ _ Hts). now rewrite <- Hpk.
      * apply StronglySorted_snoc; assumption.
      * apply Forall_app. split; [assumption|]. constructor; [cbn; lia | constructor].
  - repeat split; assumption.
Qed.

Lemma finder_inv_step s i ele st :
  (1 <= i)%nat -> nth_error s i = Some ele ->
  finder_inv s i st -> finder_inv s (S i) (finder_step i ele st).
Proof.
  intros Hi Hnth Hinv.
  destruct (finder_inv_push s i st Hinv) as (Hpok & Hpsorted & Hplt).
  destruct Hinv as [Hord Hpk Hps Htr Hsegs Hsorted Hbefore].
  assert (Hlt : Forall (fun g => (troughI g < i)%nat) (f_segments st)).
  { eapply Forall_impl; [|exact Hbefore]. cbn. intros g Hg. lia. }
  unfold finder_step. destruct ele as [e|].
  2:{ constructor; try assumption. lia. }
  destruct (Rltb_spec (f_peakEle st) e) as [H1|H1].
  { constructor; cbn; try assumption; try lia.
    - symmetry. now apply sample_or_zero_some.
    - now right.
    - now left. }
  destruct (Rltb_spec e (f_troughEle st)) as [H2|H2].
  { constructor; cbn; try assumption; try lia.
    right. split; [lia | assumption]. }
  destruct (Rltb_spec (f_troughEle st + MIN_CLIMB_TO_RESET) e) as [H3|H3].
  { constructor; cbn; try assumption; try lia.
    - symmetry. now apply sample_or_zero_some.
    - now right.
    - now left. }
  constructor; try assumption. lia.
Qed.

Lemma finder_inv_scan l : forall pre st,
  (1 <= length pre)%nat ->
  finder_inv (pre ++ l) (length pre) st ->
  finder_inv (pre ++ l) (length (pre ++ l)) (scan_list (length pre) l st).
Proof.
  unfold scan_list. induction l as [|a l IH]; intros pre st Hpre Hinv.
  - rewrite app_nil_r in *. exact Hinv.
  - cbn [fold_from].
    assert (Hnth : nth_error (pre ++ a :: l) (length pre) = Some a).
    { rewrite nth_error_app2 by lia. now rewrite Nat.sub_diag. }
    pose proof (finder_inv_step _ _ _ _ Hpre Hnth Hinv) as Hstep.
    specialize (IH (pre ++ [a])). rewrite <- app_assoc in IH. cbn [app] in IH.
    rewrite length_app in IH. cbn [length] in IH. rewrite Nat.add_1_r in IH.
    apply IH; [lia | exact Hstep].
Qed.

Lemma finder_inv_final s :
  exists i, finder_inv s i (finder_scan s).
Proof.
  rewrite finder_scan_list. destruct s as [|x r].
  - exists 1%nat. apply finder_inv_init.
  - exists (length ([x] ++ r)). cbn [tl].
    apply (finder_inv_scan r [x]); [cbn; lia | apply finder_inv_init].
Qed.

Lemma segment_ok_both_samples s e0 g :
  nth_error s 0 = Some (Some e0) -> segment_ok s g ->
  exists p t, nth_error s (peakI g) = Some (Some p) /\
              nth_error s (troughI g) = Some (Some t) /\ drop g = p - t.
Proof.
  intros H0 (Hlt & [t Ht] & Hp & Hdrop & _).
  assert (Hpk : exists p, nth_error s (peakI g) = Some (Some p)).
  { destruct Hp as [Hz|Hp]; [rewrite Hz; eauto | exact Hp]. }
  destruct Hpk as [p Hpk]. exists p, t. repeat split; try assumption.
  now rewrite Hdrop, (sample_or_zero_some _ _ _ Hpk), (sample_or_zero_some _ _ _ Ht).
Qed.

(** *** C4 *)

(** C4 (as amended).  For every smoothed series, of every segment the finder
    returns: the trough lies after the peak and is a sample with a non-null
    elevation; the peak is a sample with a non-null elevation or is index 0;
    the recorded drop is the elevation at the peak index minus the elevation
    at the trough index, a null first sample counting as 0, and is at least
    [MIN_DROP_M] = 200.  The segments are in increasing index order and no two
    overlap: each trough index is below the peak index of every later
    segment.  When the first sample of the series is non-null, both ends of
    every segment are non-null samples and the drop is their difference. *)
Theorem findDescentSegments_invariants (s : list (option R)) :
  Forall (segment_ok s) (findDescentSegments s)
  /\ segments_ordered (findDescentSegments s)
  /\ (forall e0, nth_error s 0 = Some (Some e0) ->
        Forall (fun g => exists p t,
                  nth_error s (peakI g) = Some (Some p) /\
                  nth_error s (troughI g) = Some (Some t) /\ drop g = p - t)
               (findDescentSegments s)).
Proof.
  unfold findDescentSegments. destruct (finder_inv_final s) as [i Hinv].
  destruct (finder_inv_push s i _ Hinv) as (Hok & Hsorted & _).
  repeat split; try assumption.
  intros e0 H0. eapply Forall_impl; [|exact Hok].
  intros g Hg. now apply (segment_ok_both_samples s e0).
Qed.

(** The claim as worded fails on a series that starts with a null and then
    goes below -200: the finder returns a segment whose peak index is 0, and
    the smoothed series has no elevation there. *)
Lemma findDescentSegments_peak_at_null :
  findDescentSegments [None; Some (-300)] = [mkSegment 0 1 300]
  /\ nth_error [None; Some (-300)] 0 = Some None.
Proof.
  split; [|reflexivity].
  run_finder. do 2 f_equal. lra.
Qed.

Lemma findDescentSegments_invariants_witness :
  Forall (fun g => exists p t,
            nth_error [Some 500; Some 100] (peakI g) = Some (Some p) /\
            nth_error [Some 500; Some 100] (troughI g) = Some (Some t) /\ drop g = p - t)
         (findDescentSegments [Some 500; Some 100]).
Proof.
  exact (proj2 (proj2 (findDescentSegments_invariants [Some 500; Some 100])) 500 eq_refl).
Defined.

(** *** Monotone series *)

Lemma weakly_decreasing_tail x l : weakly_decreasing (x :: l) -> weakly_decreasing l.
Proof. destruct l as [|y l]; cbn; tauto. Qed.

Lemma last_cons_default (r : list R) : forall y d : R, last (y :: r) d = last r y.
Proof.
  induction r as [|z r' IH]; intros y d; [reflexivity|].
  change (last (y :: z :: r') d) with (last (z :: r') d).
  rewrite (IH z d), (IH z y). reflexivity.
Qed.

(** The scan over a weakly decreasing series keeps the peak and emits
    nothing; the trough ends at the first index that reaches the final
    elevation. *)
Lemma scan_weakly_decreasing r : forall i pk k m,
  weakly_decreasing (m :: r) -> m <= pk ->
  exists k',
    scan_list i (map Some r) (mkFinder 0 pk k m []) = mkFinder 0 pk k' (last r m) []
    /\ ((last r m = m /\ k' = k) \/
        (last r m < m /\ (i <= k' < i + length r)%nat /\
         nth (k' - i) r 0 = last r m /\
         forall j, (j < k' - i)%nat -> last r m < nth j r 0)).
Proof.
  unfold scan_list. induction r as [|y r IH]; intros i pk k m Hwd Hpk.
  - exists k. cbn. split; [reflexivity | left; split; reflexivity].
  - destruct Hwd as [Hym Hwd]. cbn [map fold_from]. unfold finder_step.
    cbn [f_peakEle f_troughEle f_peakI f_troughI f_segments].
    rewrite (Rltb_false pk y) by lra.
    destruct (Rltb_spec y m) as [Hlt|Hge].
    + destruct (IH (S i) pk i y Hwd ltac:(lra)) as (k' & Hscan & Hk).
      exists k'. rewrite last_cons_default. split; [exact Hscan|]. right.
      destruct Hk as [[Hl Hk]|(Hl & Hk & Hn & Hall)].
      * subst k'. rewrite Hl. repeat split; try lra; cbn [length]; try lia.
        now rewrite Nat.sub_diag.
      * repeat split; try lra; cbn [length]; try lia.
        -- replace (k' - i)%nat with (S (k' - S i)) by lia. exact Hn.
        -- intros [|j] Hj; cbn [nth]; [lra | apply Hall; lia].
    + assert (y = m) by lra. subst y.
      unfold MIN_CLIMB_TO_RESET. rewrite (Rltb_false (m + 100) m) by lra.
      destruct (IH (S i) pk k m Hwd Hpk) as (k' & Hscan & Hk).
      exists k'. rewrite last_cons_default. split; [exact Hscan|].
      destruct Hk as [[Hl Hk]|(Hl & Hk & Hn & Hall)].
      * left. split; assumption.
      * right. repeat split; try lra; cbn [length]; try lia.
        -- replace (k' - i)%nat with (S (k' - S i)) by lia. exact Hn.
        -- intros [|j] Hj; cbn [nth]; [lra | apply Hall; lia].
Qed.

Lemma strictly_decreasing_nth l : forall j k,
  strictly_decreasing l -> (j < k < length l)%nat -> nth k l 0 < nth j l 0.
Proof.
  induction l as [|x l IH]; intros j k Hsd Hjk; [cbn in Hjk; lia|].
  destruct k as [|k]; [lia|]. cbn [nth].
  assert (Htail : strictly_decreasing l) by (destruct l; cbn in *; tauto).
  assert (Hhead : forall n, (n < length l)%nat -> nth n l 0 < x).
  { intros n Hn. destruct n as [|n].
    - destruct l as [|y l]; [cbn in Hn; lia | cbn in *; tauto].
    - apply Rlt_trans with (nth 0 l 0).
      + apply IH; [assumption | lia].
      + destruct l as [|y l]; [cbn in Hn; lia | cbn in *; tauto]. }
  destruct j as [|j]; cbn [nth].
  - apply Hhead. cbn in Hjk. lia.
  - apply IH; [assumption | cbn in Hjk; lia].
Qed.

Lemma nth_last_index (l : list R) : nth (length l - 1) l 0 = last l 0.
Proof.
  induction l as [|x l IH]; [reflexivity|].
  destruct l as [|y l]; [reflexivity|].
  replace (length (x :: y :: l) - 1)%nat with (S (length (y :: l) - 1)) by (cbn [length]; lia).
  change (nth (S (length (y :: l) - 1)) (x :: y :: l) 0)
    with (nth (length (y :: l) - 1) (y :: l) 0).
  rewrite IH. reflexivity.
Qed.

(** The scan over a weakly increasing series keeps peak and trough together
    and emits nothing. *)
Lemma scan_weakly_increasing r : forall i k pk,
  weakly_increasing (pk :: r) ->
  exists k' pk', scan_list i (map Some r) (mkFinder k pk k pk []) = mkFinder k' pk' k' pk' [].
Proof.
  unfold scan_list. induction r as [|y r IH]; intros i k pk Hwi.
  - exists k, pk. reflexivity.
  - destruct Hwi as [Hy Hwi]. cbn [map fold_from]. unfold finder_step.
    cbn [f_peakEle f_troughEle f_peakI f_troughI f_segments].
    destruct (Rltb_spec pk y) as [Hlt|Hge].
    + apply IH. exact Hwi.
    + assert (y = pk) by lra. subst y.
      unfold MIN_CLIMB_TO_RESET.
      rewrite (Rltb_false pk pk) by lra. rewrite (Rltb_false (pk + 100) pk) by lra.
      apply IH. exact Hwi.
Qed.

(** *** C5 *)

(** C5 (as amended).  For every weakly decreasing sequence of elevations of
    length at least 2 whose total drop is at least [MIN_DROP_M] = 200, the
    finder returns exactly one segment; its peak index is 0, its drop is
    [elevation[0] - elevation[last]], and its trough index is the first index
    at which the final elevation is reached, which is the last index when the
    sequence is strictly decreasing.  For every weakly increasing sequence
    the finder returns no segment. *)
Theorem findDescentSegments_monotone :
  (forall l : list R,
      (2 <= length l)%nat -> weakly_decreasing l -> MIN_DROP_M <= hd 0 l - last l 0 ->
      exists k,
        findDescentSegments (map Some l) = [mkSegment 0 k (hd 0 l - last l 0)]
        /\ (k < length l)%nat
        /\ nth k l 0 = last l 0
        /\ (forall j, (j < k)%nat -> last l 0 < nth j l 0)
        /\ (strictly_decreasing l -> k = (length l - 1)%nat))
  /\ (forall l : list R, weakly_increasing l -> findDescentSegments (map Some l) = []).
Proof.
  split.
  - intros l Hlen Hwd Hdrop. destruct l as [|x r]; [cbn in Hlen; lia|].
    cbn [hd] in *. rewrite last_cons_default in *.
    destruct (scan_weakly_decreasing r 1 x 0 x Hwd ltac:(lra)) as (k & Hscan & Hk).
    unfold MIN_DROP_M in Hdrop.
    destruct Hk as [[Hl _]|(Hl & Hk & Hn & Hall)]; [lra|].
    exists k. unfold findDescentSegments. rewrite finder_scan_list. cbn [map tl].
    unfold finder_init. cbn [nth_error or_zero]. rewrite Hscan.
    unfold push_if_significant. cbn [f_peakEle f_troughEle f_peakI f_troughI f_segments].
    unfold MIN_DROP_M. rewrite Rleb_true by lra.
    assert (Hnk : nth k (x :: r) 0 = last r x).
    { replace k with (S (k - 1)) by lia. exact Hn. }
    repeat split.
    + cbn [length]. lia.
    + exact Hnk.
    + intros [|j] Hj; cbn [nth]; [lra | apply Hall; lia].
    + intros Hsd.
      destruct (Nat.eq_dec k (length (x :: r) - 1)) as [E|E]; [exact E|].
      exfalso.
      assert (Hlast : nth (length (x :: r) - 1) (x :: r) 0 < nth k (x :: r) 0).
      { apply strictly_decreasing_nth; [assumption | cbn [length] in *; lia]. }
      rewrite nth_last_index, last_cons_default, Hnk in Hlast. lra.
  - intros l Hwi. unfold findDescentSegments. rewrite finder_scan_list.
    destruct l as [|x r].
    + cbn. unfold push_if_significant, MIN_DROP_M. cbn. now rewrite Rleb_false by lra.
    + cbn [map tl]. unfold finder_init. cbn [nth_error or_zero].
      destruct (scan_weakly_increasing r 1 0 x Hwi) as (k' & pk' & Hscan).
      rewrite Hscan. unfold push_if_significant, MIN_DROP_M.
      cbn [f_peakEle f_troughEle f_peakI f_troughI f_segments].
      now rewrite Rleb_false by lra.
Qed.

Lemma findDescentSegments_monotone_witness :
  exists k,
    findDescentSegments (map Some [500; 400; 200]) = [mkSegment 0 k (hd 0 [500; 400; 200] - last [500; 400; 200] 0)]
    /\ (k < length [500; 400; 200])%nat
    /\ nth k [500; 400; 200] 0 = last [500; 400; 200] 0
    /\ (forall j, (j < k)%nat -> last [500; 400; 200] 0 < nth j [500; 400; 200] 0)
    /\ (strictly_decreasing [500; 400; 200] -> k = (length [500; 400; 200] - 1)%nat).
Proof.
  apply (proj1 findDescentSegments_monotone [500; 400; 200]).
  - cbn. lia.
  - cbn. lra.
  - unfold MIN_DROP_M. cbn. lra.
Defined.

(** The claim as worded fails on a decreasing sequence that ends flat: the
    total drop is 300, the last index is 2, and the trough of the one segment
    is index 1, where the final elevation is first reached. *)
Lemma findDescentSegments_flat_tail :
  weakly_decreasing [500; 200; 200]
  /\ findDescentSegments (map Some [500; 200; 200]) = [mkSegment 0 1 300]
  /\ (length [500; 200; 200] - 1)%nat = 2%nat.
Proof.
  split; [cbn; lra|]. split; [|reflexivity].
  cbn [map]. run_finder. do 2 f_equal. lra.
Qed.

(** ** Scorer *)

Lemma js_round_le x y : x <= y -> js_round x <= js_round y.
Proof. intros H. unfold js_round. apply IZR_le, Zfloor_le. lra. Qed.

Lemma js_round_IZR z : js_round (IZR z) = IZR z.
Proof.
  unfold js_round. f_equal. apply Zfloor_eq. lra.
Qed.

Lemma Rmin_le_mono x y c : x <= y -> Rmin x c <= Rmin y c.
Proof. intros H. unfold Rmin. destruct (Rle_dec x c), (Rle_dec y c); lra. Qed.

Lemma Rmax_0_upper g : Rmax 0 (50 - Rabs (g - 30) * 5) <= 50.
Proof.
  pose proof (Rabs_pos (g - 30)). unfold Rmax.
  destruct (Rle_dec 0 (50 - Rabs (g - 30) * 5)); lra.
Qed.

Lemma Rmax_0_at_30 : Rmax 0 (50 - Rabs (30 - 30) * 5) = 50.
Proof.
  replace (30 - 30) with 0 by lra. rewrite Rabs_R0. unfold Rmax.
  destruct (Rle_dec 0 (50 - 0 * 5)); lra.
Qed.

(** *** C7 *)

(** C7.  The score does not decrease when [verticalDrop] grows while
    [avgGradientDeg] and the steep sub-run (absent, or present with the same
    drop) stay as they are; and with [verticalDrop] and the steep sub-run as
    they are, no gradient scores higher than [avgGradientDeg = 30]. *)
Theorem descentScore_monotone :
  (forall a1 a2 : analysis,
      avgGradientDeg a1 = avgGradientDeg a2 ->
      option_map s_verticalDrop (steepSegment a1) = option_map s_verticalDrop (steepSegment a2) ->
      verticalDrop a1 <= verticalDrop a2 ->
      descentScore (Some a1) <= descentScore (Some a2))
  /\ (forall (vd hd g pe te : R) (ss : option steep),
        descentScore (Some (mkAnalysis vd hd g pe te ss)) <=
        descentScore (Some (mkAnalysis vd hd 30 pe te ss))).
Proof.
  split.
  - intros a1 a2 Hg Hss Hvd. unfold descentScore. rewrite Hg.
    pose proof (Rmin_le_mono _ _ 1200 Hvd) as Hmin.
    apply Rmult_le_compat_r; [lra|]. apply js_round_le.
    destruct (steepSegment a1) as [s1|], (steepSegment a2) as [s2|]; cbn in Hss;
      try discriminate; [injection Hss as Hss; rewrite Hss|]; lra.
  - intros vd hd g pe te ss. unfold descentScore.
    cbn [verticalDrop avgGradientDeg steepSegment].
    pose proof (Rmax_0_upper g) as Hup. rewrite Rmax_0_at_30.
    apply Rmult_le_compat_r; [lra|]. apply js_round_le.
    destruct ss as [s|]; lra.
Qed.

Lemma descentScore_monotone_witness :
  descentScore (Some (mkAnalysis 300 1000 28 900 600 None)) <=
  descentScore (Some (mkAnalysis 450 1000 28 900 600 None)).
Proof.
  apply (proj1 descentScore_monotone
           (mkAnalysis 300 1000 28 900 600 None) (mkAnalysis 450 1000 28 900 600 None)).
  - reflexivity.
  - reflexivity.
  - cbn. lra.
Defined.

(** ** Steep segment analyzer *)

Lemma longest_run_list chunks : longest_run chunks = run_list 0 chunks (mkRuns 0 0 0 0).
Proof. exact (for_steps_fold_from run_step chunks [] (mkRuns 0 0 0 0)). Qed.

Lemma in_band_bounds ch :
  in_band ch = true <-> STEEP_MIN_DEG <= grad ch <= STEEP_MAX_DEG.
Proof.
  unfold in_band. rewrite andb_true_iff.
  destruct (Rleb_spec STEEP_MIN_DEG (grad ch)), (Rleb_spec (grad ch) STEEP_MAX_DEG);
    split; intros [? ?]; try discriminate; try lra; split; reflexivity.
Qed.

Lemma steep_run_nil chunks s : (s <= length chunks)%nat -> steep_run chunks s 0.
Proof. intros H. split; [lia | intros k Hk; lia]. Qed.

Lemma steep_run_shorter chunks s n : steep_run chunks s (S n) -> steep_run chunks s n.
Proof. intros [Hlen H]. split; [lia | intros k Hk; apply H; lia]. Qed.

Lemma steep_run_extend chunks s n ch :
  steep_run chunks s n -> nth_error chunks (s + n) = Some ch -> in_band ch = true ->
  steep_run chunks s (S n).
Proof.
  intros [Hlen H] Hnth Hband. split.
  - assert ((s + n < length chunks)%nat) by (apply nth_error_Some; congruence). lia.
  - intros k Hk. destruct (Nat.eq_dec k (s + n)) as [->|Hne]; [eauto | apply H; lia].
Qed.

Lemma steep_run_last chunks s n ch :
  steep_run chunks s (S n) -> nth_error chunks (s + n) = Some ch -> in_band ch = true.
Proof.
  intros [_ H] Hnth. destruct (H (s + n)%nat ltac:(lia)) as (ch' & Hch' & Hband). congruence.
Qed.

Lemma runs_inv_init chunks : runs_inv chunks 0 (mkRuns 0 0 0 0).
Proof.
  constructor; cbn; try lia; try (apply steep_run_nil; lia); intros; lia.
Qed.

Lemma runs_inv_step chunks c ch st :
  nth_error chunks c = Some ch ->
  runs_inv chunks c st -> runs_inv chunks (S c) (run_step c ch st).
Proof.
  intros Hnth [Hbest Hbin Hlong Hearly Hcur Hcin Hcstart Hcmax].
  assert (Hc : (c < length chunks)%nat) by (apply nth_error_Some; congruence).
  unfold run_step. destruct (in_band ch) eqn:Hband.
  - assert (Hstart : (if (curLen st =? 0)%nat then c else curStart st) = (c - curLen st)%nat).
    { destruct (Nat.eqb_spec (curLen st) 0) as [E|E]; [lia | apply Hcstart; lia]. }
    rewrite Hstart.
    assert (Hcur' : steep_run chunks (c - curLen st) (S (curLen st))).
    { apply (steep_run_extend _ _ _ ch); try assumption.
      replace (c - curLen st + curLen st)%nat with c by lia. exact Hnth. }
    assert (Hcmax' : forall s n, steep_run chunks s n -> (s + n = S c)%nat ->
                                 (n <= S (curLen st))%nat).
    { intros s [|n] Hrun Hend; [lia|].
      apply steep_run_shorter in Hrun. specialize (Hcmax s n Hrun). lia. }
    destruct (Nat.ltb_spec (bestLen st) (S (curLen st))) as [Hlt|Hge].
    + constructor; cbn; try assumption; try lia.
      * intros s n Hrun Hin. destruct (Nat.eq_dec (s + n) (S c)) as [E|E].
        -- now apply Hcmax' with s.
        -- specialize (Hlong s n Hrun). lia.
      * intros s Hrun Hin _. destruct (Nat.eq_dec (s + S (curLen st)) (S c)) as [E|E]; [lia|].
        specialize (Hlong s _ Hrun). lia.
    + constructor; cbn; try assumption; try lia.
      * intros s n Hrun Hin. destruct (Nat.eq_dec (s + n) (S c)) as [E|E].
        -- specialize (Hcmax' s n Hrun E). lia.
        -- apply (Hlong s n Hrun). lia.
      * intros s Hrun Hin Hpos. destruct (Nat.eq_dec (s + bestLen st) (S c)) as [E|E]; [lia|].
        apply Hearly; [assumption | lia | assumption].
  - assert (Hnone : forall s n, steep_run chunks s n -> (s + n = S c)%nat -> n = 0%nat).
    { intros s [|n] Hrun Hend; [reflexivity|]. exfalso.
      assert (Hb : in_band ch = true).
      { apply (steep_run_last chunks s n); [assumption|].
        replace (s + n)%nat with c by lia. exact Hnth. }
      congruence. }
    constructor; cbn; try assumption; try lia.
    + intros s n Hrun Hin. destruct (Nat.eq_dec (s + n) (S c)) as [E|E].
      * rewrite (Hnone s n Hrun E). lia.
      * apply (Hlong s n Hrun). lia.
    + intros s Hrun Hin Hpos. destruct (Nat.eq_dec (s + bestLen st) (S c)) as [E|E].
      * specialize (Hnone s _ Hrun E). lia.
      * apply Hearly; [assumption | lia | assumption].
    + apply steep_run_nil. lia.
    + intros s n Hrun Hend. rewrite (Hnone s n Hrun Hend). lia.
Qed.

Lemma runs_inv_list l : forall pre st,
  runs_inv (pre ++ l) (length pre) st ->
  runs_inv (pre ++ l) (length (pre ++ l)) (run_list (length pre) l st).
Proof.
  unfold run_list. induction l as [|a l IH]; intros pre st Hinv.
  - rewrite app_nil_r in *. exact Hinv.
  - cbn [fold_from].
    assert (Hnth : nth_error (pre ++ a :: l) (length pre) = Some a).
    { rewrite nth_error_app2 by lia. now rewrite Nat.sub_diag. }
    pose proof (runs_inv_step _ _ _ _ Hnth Hinv) as Hstep.
    specialize (IH (pre ++ [a])). rewrite <- app_assoc in IH. cbn [app] in IH.
    rewrite length_app in IH. cbn [length] in IH. rewrite Nat.add_1_r in IH.
    apply IH. exact Hstep.
Qed.

Lemma longest_run_inv chunks : runs_inv chunks (length chunks) (longest_run chunks).
Proof.
  rewrite longest_run_list. apply (runs_inv_list chunks []). apply runs_inv_init.
Qed.

Lemma longest_run_none chunks :
  bestLen (longest_run chunks) = 0%nat <-> forall ch, In ch chunks -> in_band ch = false.
Proof.
  destruct (longest_run_inv chunks) as [_ _ Hlong _ _ _ _ _]. split.
  - intros Hz ch Hin. destruct (in_band ch) eqn:Hband; [|reflexivity]. exfalso.
    destruct (In_nth_error _ _ Hin) as [k Hk].
    assert (Hkl : (k < length chunks)%nat) by (apply nth_error_Some; congruence).
    assert (Hrun : steep_run chunks k 1).
    { split; [lia|]. intros j Hj. replace j with k by lia. eauto. }
    specialize (Hlong k 1%nat Hrun). lia.
  - intros Hall. destruct (bestLen (longest_run chunks)) as [|n] eqn:E; [reflexivity|]. exfalso.
    destruct (longest_run_inv chunks) as [[_ Hbest] _ _ _ _ _ _ _]. rewrite E in Hbest.
    destruct (Hbest (bestStart (longest_run chunks)) ltac:(lia)) as (ch & Hch & Hband).
    apply nth_error_In in Hch. rewrite (Hall ch Hch) in Hband. discriminate.
Qed.

Lemma fold_left_sum {A : Type} (f : A -> R) (l : list A) : forall a,
  fold_left (fun s c => s + f c) l a = a + Rsum (map f l).
Proof.
  induction l as [|x l IH]; intros a; cbn [fold_left map Rsum fold_right].
  - lra.
  - rewrite IH. unfold Rsum. lra.
Qed.

(** Evaluates the scan for the longest run on chunks with numeral gradients,
    one chunk at a time. *)
Ltac run_runs :=
  rewrite longest_run_list; unfold run_list;
  repeat (rewrite fold_from_cons;
          unfold run_step, in_band, STEEP_MIN_DEG, STEEP_MAX_DEG;
          cbn [grad bestStart bestLen curStart curLen];
          decide_cmp;
          cbn [grad bestStart bestLen curStart curLen andb Nat.eqb Nat.ltb Nat.leb]);
  cbn [fold_from].

(** *** C6 *)

(** C6.  For every chunk list, the run the analyzer selects, the chunks
    [bestStart .. bestStart+bestLen-1]: is a run of consecutive chunks whose
    gradient lies in [[25, 35]]; no such run has more chunks; and among the
    runs with that many chunks none starts earlier.  Runs are compared by
    their number of chunks alone.  When the list is the one built inside the
    analyzer, the analyzer returns null exactly when no chunk lies in the
    band, and what it returns otherwise is the total drop and total distance
    of the selected run, rounded. *)
Theorem longest_steep_run_selected (chunks : list chunk) :
  steep_run chunks (bestStart (longest_run chunks)) (bestLen (longest_run chunks))
  /\ (forall s n, steep_run chunks s n -> (n <= bestLen (longest_run chunks))%nat)
  /\ (forall s, steep_run chunks s (bestLen (longest_run chunks)) ->
                (0 < bestLen (longest_run chunks))%nat ->
                (bestStart (longest_run chunks) <= s)%nat)
  /\ (forall ch, in_band ch = true <-> STEEP_MIN_DEG <= grad ch <= STEEP_MAX_DEG)
  /\ (forall points smoothEle peakI troughI,
        build_chunks points smoothEle peakI troughI = Done chunks ->
        (findLongestSteepSegment points smoothEle peakI troughI = Done None <->
         forall ch, In ch chunks -> in_band ch = false)
        /\ (forall ss, findLongestSteepSegment points smoothEle peakI troughI = Done (Some ss) ->
              let run := slice (bestStart (longest_run chunks)) (bestLen (longest_run chunks)) chunks in
              s_verticalDrop ss = js_round (Rsum (map c_drop run)) /\
              s_horizDistM ss = js_round (Rsum (map dist run)))).
Proof.
  destruct (longest_run_inv chunks) as [Hbest _ Hlong Hearly _ _ _ _].
  split; [exact Hbest|]. split; [|split; [|split; [exact in_band_bounds|]]].
  - intros s n Hrun. apply (Hlong s n Hrun). apply Hrun.
  - intros s Hrun Hpos. apply Hearly; [assumption | apply Hrun | assumption].
  - intros points smoothEle peakI troughI Hbuild.
    unfold findLongestSteepSegment. rewrite Hbuild. cbn [bind].
    pose proof (longest_run_none chunks) as Hnone.
    destruct (Nat.eqb_spec (bestLen (longest_run chunks)) 0) as [Hz|Hnz].
    + split; [|intros ss H; discriminate].
      split; [intros _; now apply Hnone | reflexivity].
    + set (run := slice _ _ chunks).
      destruct (nth_error run 0) as [first|]; [|split; [split; [discriminate | tauto] | discriminate]].
      destruct (nth_error run (length run - 1)) as [last|];
        [|split; [split; [discriminate | tauto] | discriminate]].
      destruct (num_ele smoothEle (startI first)) as [|se]; cbn [bind];
        [split; [split; [discriminate | tauto] | discriminate]|].
      destruct (num_ele smoothEle (endI last)) as [|ee]; cbn [bind];
        [split; [split; [discriminate | tauto] | discriminate]|].
      split; [split; [discriminate | tauto]|].
      intros ss H. injection H as <-. cbn [s_verticalDrop s_horizDistM].
      rewrite !fold_left_sum, !Rplus_0_l. split; reflexivity.
Qed.

Lemma four_chunks_run : steep_run four_chunks 2 2.
Proof.
  split; [cbn; lia|]. intros k Hk.
  assert (Hband : in_band (mkChunk 6 9 60 30 30) = true /\ in_band (mkChunk 9 12 60 30 30) = true).
  { unfold in_band, STEEP_MIN_DEG, STEEP_MAX_DEG. cbn [grad]. decide_cmp. split; reflexivity. }
  destruct k as [|[|[|[|k]]]]; try lia; eexists; (split; [reflexivity | apply Hband]).
Qed.

Lemma longest_steep_run_selected_witness :
  (2 <= bestLen (longest_run four_chunks))%nat.
Proof.
  exact (proj1 (proj2 (longest_steep_run_selected four_chunks)) 2%nat 2%nat four_chunks_run).
Defined.

(** A run of two chunks that drops 80 m, then a run of three chunks that
    drops 75 m: the run of three is the one selected. *)
Example longest_run_by_length_not_drop :
  longest_run
    [mkChunk 0 2 60 40 33; mkChunk 2 4 60 40 33; mkChunk 4 6 60 5 4;
     mkChunk 6 8 55 25 26; mkChunk 8 10 55 25 26; mkChunk 10 12 55 25 26]
  = mkRuns 3 3 3 3.
Proof. run_runs. reflexivity. Qed.

(** Two runs of two chunks: the earlier one is the one selected. *)
Example longest_run_tie_earliest :
  longest_run
    [mkChunk 0 2 60 30 30; mkChunk 2 4 60 30 30; mkChunk 4 6 60 5 4;
     mkChunk 6 8 60 35 33; mkChunk 8 10 60 35 33]
  = mkRuns 0 2 3 2.
Proof. run_runs. reflexivity. Qed.

(** ** Descent evaluator *)

Lemma nth_error_slice {A : Type} (l : list A) s n i :
  nth_error (slice s n l) i = if (i <? n)%nat then nth_error l (s + i) else None.
Proof. unfold slice. rewrite nth_error_firstn, nth_error_skipn. reflexivity. Qed.

Lemma skipn_nth_cons {A : Type} (l : list A) : forall i x,
  nth_error l i = Some x -> skipn i l = x :: skipn (S i) l.
Proof.
  induction l as [|a l IH]; intros [|i] x H; cbn in H; try discriminate.
  - injection H as ->. reflexivity.
  - cbn [skipn]. rewrite (IH i x H). reflexivity.
Qed.

Lemma slice_cons {A : Type} (l : list A) i n x :
  nth_error l i = Some x -> slice i (S n) l = x :: slice (S i) n l.
Proof. intros H. unfold slice. rewrite (skipn_nth_cons l i x H). reflexivity. Qed.

Lemma hops_cons p q l : hops (p :: q :: l) = hop_m p q :: hops (q :: l).
Proof. reflexivity. Qed.

Lemma hops_short l : (length l <= 1)%nat -> hops l = [].
Proof. destruct l as [|p [|q l]]; cbn; intros H; try reflexivity; lia. Qed.

Lemma get_point_in_range points i :
  (i < length points)%nat -> exists p, nth_error points i = Some p /\ get_point points i = Done p.
Proof.
  intros H. unfold get_point. destruct (nth_error points i) as [p|] eqn:E.
  - eauto.
  - apply nth_error_None in E. lia.
Qed.

(** The distance loop returns the sum of the hops it passes, the hops of more
    than 2000 m left out. *)
Lemma dist_loop points n : forall j acc,
  (1 <= j)%nat -> (j + n <= length points)%nat ->
  for_stepsM n j (dist_body points) acc =
  Done (acc + Rsum (filter (fun d => Rleb d 2000) (hops (slice (j - 1) (S n) points)))).
Proof.
  induction n as [|n IH]; intros j acc Hj Hlen.
  - cbn [for_stepsM]. rewrite hops_short.
    + cbn. f_equal. lra.
    + unfold slice. apply firstn_le_length.
  - cbn [for_stepsM]. unfold dist_body at 1. unfold segDist_at.
    destruct (get_point_in_range points (j - 1) ltac:(lia)) as (p & Hp & ->).
    destruct (get_point_in_range points j ltac:(lia)) as (q & Hq & ->).
    cbn [bind].
    rewrite (slice_cons points (j - 1) (S n) p Hp).
    replace (S (j - 1)) with j by lia.
    rewrite (slice_cons points j n q Hq).
    rewrite hops_cons. rewrite <- (slice_cons points j n q Hq). cbn [filter].
    specialize (IH (S j)). replace (S j - 1)%nat with j in IH by lia.
    destruct (Rltb_spec 2000 (hop_m p q)) as [Hbig|Hok].
    + rewrite Rleb_false by lra. cbn [bind]. apply IH; lia.
    + rewrite Rleb_true by lra. cbn [bind]. rewrite IH by lia.
      f_equal. cbn [Rsum fold_right]. unfold Rsum. lra.
Qed.

Lemma dist_loop_usable points peakI troughI :
  (troughI < length points)%nat ->
  for_uptoM (peakI + 1) (Z.of_nat troughI) (dist_body points) 0 =
  Done (usable_distance points peakI troughI).
Proof.
  intros Hlen. unfold for_uptoM, usable_distance.
  replace (Z.to_nat (Z.of_nat troughI + 1 - Z.of_nat (peakI + 1))) with (troughI - peakI)%nat by lia.
  destruct (Nat.le_gt_cases peakI troughI) as [Hle|Hgt].
  - rewrite dist_loop by lia. rewrite Rplus_0_l.
    replace (peakI + 1 - 1)%nat with peakI by lia.
    replace (S (troughI - peakI)) with (S troughI - peakI)%nat by lia. reflexivity.
  - replace (troughI - peakI)%nat with 0%nat by lia.
    replace (S troughI - peakI)%nat with 0%nat by lia. reflexivity.
Qed.

Lemma read_ele_in_range smoothEle i :
  (i < length smoothEle)%nat -> exists v, read_ele smoothEle i = Done v.
Proof.
  intros H. unfold read_ele. destruct (nth_error smoothEle i) eqn:E; [eauto|].
  apply nth_error_None in E. lia.
Qed.

Lemma num_ele_in_range smoothEle i :
  (i < length smoothEle)%nat -> exists v, num_ele smoothEle i = Done v.
Proof.
  intros H. unfold num_ele. destruct (nth_error smoothEle i) as [[e|]|] eqn:E; eauto.
  apply nth_error_None in E. lia.
Qed.

(** The chunking loop does not fault on a span inside the arrays, and the
    chunks it builds have their ends inside the arrays. *)
Lemma chunk_loop_total points smoothEle n : forall j st,
  (1 <= j)%nat -> (j + n <= length points)%nat -> length smoothEle = length points ->
  (k_chunkStartI st < j)%nat ->
  Forall (chunk_in_range (length smoothEle)) (k_chunks st) ->
  exists st',
    for_stepsM n j (chunk_body points smoothEle) st = Done st'
    /\ Forall (chunk_in_range (length smoothEle)) (k_chunks st').
Proof.
  induction n as [|n IH]; intros j st Hj Hlen Hsame Hstart Hchunks.
  - exists st. split; [reflexivity | assumption].
  - cbn [for_stepsM]. unfold chunk_body at 1. unfold segDist_at.
    destruct (get_point_in_range points (j - 1) ltac:(lia)) as (p & Hp & ->).
    destruct (get_point_in_range points j ltac:(lia)) as (q & Hq & ->).
    cbn [bind].
    destruct (Rltb 2000 (hop_m p q)).
    { cbn [bind]. apply IH; try assumption; lia. }
    destruct (Rleb CHUNK_DIST_M (k_chunkDist st + hop_m p q)).
    2:{ cbn [bind]. apply IH; cbn; try assumption; lia. }
    destruct (read_ele_in_range smoothEle (k_chunkStartI st) ltac:(lia)) as (se & ->).
    destruct (read_ele_in_range smoothEle j ltac:(lia)) as (ee & ->).
    cbn [bind]. apply IH; cbn [k_chunkStartI k_chunks]; try assumption; try lia.
    destruct se as [s|], ee as [e|]; try assumption.
    destruct (Rltb 0 (k_chunkDist st + hop_m p q)); [|assumption].
    apply Forall_app. split; [assumption|]. constructor; [|constructor].
    split; cbn; lia.
Qed.

Lemma build_chunks_total points smoothEle peakI troughI :
  (troughI < length points)%nat -> length smoothEle = length points ->
  exists chunks,
    build_chunks points smoothEle peakI troughI = Done chunks
    /\ Forall (chunk_in_range (length smoothEle)) chunks.
Proof.
  intros Hlen Hsame. unfold build_chunks, for_uptoM.
  replace (Z.to_nat (Z.of_nat troughI + 1 - Z.of_nat (peakI + 1))) with (troughI - peakI)%nat by lia.
  destruct (Nat.le_gt_cases peakI troughI) as [Hle|Hgt].
  - destruct (chunk_loop_total points smoothEle (troughI - peakI) (peakI + 1)
                (mkChunker [] peakI 0)) as (st' & -> & Hst'); cbn; try lia; try constructor.
    exists (k_chunks st'). split; [reflexivity | assumption].
  - replace (troughI - peakI)%nat with 0%nat by lia. cbn.
    exists []. split; [reflexivity | constructor].
Qed.

Lemma findLongestSteepSegment_total points smoothEle peakI troughI :
  (troughI < length points)%nat -> length smoothEle = length points ->
  exists r, findLongestSteepSegment points smoothEle peakI troughI = Done r.
Proof.
  intros Hlen Hsame.
  destruct (build_chunks_total points smoothEle peakI troughI Hlen Hsame) as (chunks & Hb & Hin).
  unfold findLongestSteepSegment. rewrite Hb. cbn [bind].
  destruct (Nat.eqb_spec (bestLen (longest_run chunks)) 0) as [Hz|Hnz]; [eauto|].
  destruct (longest_run_inv chunks) as [[Hbound _] _ _ _ _ _ _ _].
  set (bs := bestStart (longest_run chunks)) in *.
  set (bl := bestLen (longest_run chunks)) in *.
  assert (Hlenrun : length (slice bs bl chunks) = bl).
  { unfold slice. rewrite length_firstn, length_skipn. lia. }
  rewrite Hlenrun.
  assert (Hget : forall i, (i < bl)%nat ->
            exists ch, nth_error (slice bs bl chunks) i = Some ch
                       /\ chunk_in_range (length smoothEle) ch).
  { intros i Hi. rewrite nth_error_slice.
    destruct (Nat.ltb_spec i bl) as [_|]; [|lia].
    destruct (nth_error chunks (bs + i)) as [ch|] eqn:E.
    - exists ch. split; [reflexivity|].
      rewrite Forall_forall in Hin. apply Hin. now apply nth_error_In in E.
    - apply nth_error_None in E. lia. }
  destruct (Hget 0%nat ltac:(lia)) as (first & -> & [Hf _]).
  destruct (Hget (bl - 1)%nat ltac:(lia)) as (last & -> & [_ Hl]).
  destruct (num_ele_in_range smoothEle (startI first) Hf) as (se & ->).
  destruct (num_ele_in_range smoothEle (endI last) Hl) as (ee & ->).
  cbn [bind]. eauto.
Qed.

Lemma analyzeDescentSegment_outcome points smoothEle peakI troughI :
  (troughI < length points)%nat -> length smoothEle = length points ->
  (usable_distance points peakI troughI < 10 /\
   analyzeDescentSegment points smoothEle peakI troughI = Done None)
  \/ (10 <= usable_distance points peakI troughI /\
      exists a, analyzeDescentSegment points smoothEle peakI troughI = Done (Some a)).
Proof.
  intros Hlen Hsame. unfold analyzeDescentSegment.
  rewrite (dist_loop_usable points peakI troughI Hlen). cbn [bind].
  destruct (Rltb_spec (usable_distance points peakI troughI) 10) as [Hshort|Hlong].
  - left. split; [assumption | reflexivity].
  - right. split; [lra|].
    assert (Hpeak : (peakI < length smoothEle)%nat).
    { destruct (Nat.le_gt_cases peakI troughI) as [Hle|Hgt]; [lia|]. exfalso.
      unfold usable_distance in Hlong.
      replace (S troughI - peakI)%nat with 0%nat in Hlong by lia.
      cbn in Hlong. lra. }
    destruct (num_ele_in_range smoothEle peakI Hpeak) as (pe & ->).
    destruct (num_ele_in_range smoothEle troughI ltac:(lia)) as (te & ->).
    destruct (findLongestSteepSegment_total points smoothEle peakI troughI Hlen Hsame) as (ss & ->).
    cbn [bind]. eauto.
Qed.

(** *** C8 *)

(** C8.  For every point array, elevation array of the same length and
    segment whose trough index lies inside them, the evaluator returns null
    if and only if the usable distance of the segment, the sum of the
    point-to-point hops over its span without the hops of more than 2000 m,
    is below 10 m; otherwise it returns a descent analysis. *)
Theorem analyzeDescentSegment_null_iff points smoothEle peakI troughI :
  (troughI < length points)%nat -> length smoothEle = length points ->
  (analyzeDescentSegment points smoothEle peakI troughI = Done None <->
   usable_distance points peakI troughI < 10)
  /\ (10 <= usable_distance points peakI troughI ->
      exists a, analyzeDescentSegment points smoothEle peakI troughI = Done (Some a)).
Proof.
  intros Hlen Hsame.
  destruct (analyzeDescentSegment_outcome points smoothEle peakI troughI Hlen Hsame)
    as [[Hshort Hres]|[Hlong [a Hres]]].
  - split; [split; [intros _; assumption | intros _; assumption] | intros H; lra].
  - split; [|intros _; eauto].
    rewrite Hres. split; [discriminate | intros H; lra].
Qed.

Lemma analyzeDescentSegment_null_iff_witness :
  (analyzeDescentSegment [mkPoint 69 19 (Some 300); mkPoint 69 19 (Some 0)]
     [Some 300; Some 0] 0 1 = Done None <->
   usable_distance [mkPoint 69 19 (Some 300); mkPoint 69 19 (Some 0)] 0 1 < 10)
  /\ (10 <= usable_distance [mkPoint 69 19 (Some 300); mkPoint 69 19 (Some 0)] 0 1 ->
      exists a, analyzeDescentSegment [mkPoint 69 19 (Some 300); mkPoint 69 19 (Some 0)]
                  [Some 300; Some 0] 0 1 = Done (Some a)).
Proof.
  apply (analyzeDescentSegment_null_iff
           [mkPoint 69 19 (Some 300); mkPoint 69 19 (Some 0)] [Some 300; Some 0] 0 1).
  - cbn. lia.
  - reflexivity.
Defined.

(** The segments of the finder lie inside the series, so the evaluator does
    not fault on them. *)
Lemma findDescentSegments_in_range s :
  Forall (fun g => (peakI g < troughI g < length s)%nat) (findDescentSegments s).
Proof.
  unfold findDescentSegments. destruct (finder_inv_final s) as [i Hinv].
  destruct (finder_inv_push s i _ Hinv) as (Hok & _ & _).
  eapply Forall_impl; [|exact Hok].
  intros g (Hlt & [t Ht] & _). split; [assumption|].
  apply nth_error_Some. congruence.
Qed.

Lemma best_of_segments_total points eles segments :
  length eles = length points ->
  Forall (fun g => (troughI g < length eles)%nat) segments ->
  forall best, exists r, forEachM (best_body points eles) segments best = Done r.
Proof.
  intros Hsame. induction 1 as [|g l Hg Hl IH]; intros best; cbn [forEachM]; [eauto|].
  unfold best_body at 1.
  destruct (analyzeDescentSegment_outcome points eles (peakI g) (troughI g)
              ltac:(lia) Hsame) as [[_ ->]|[_ [a ->]]]; cbn [bind].
  - apply IH.
  - destruct (Rltb (snd best) (descentScore (Some a))); cbn [bind]; apply IH.
Qed.

(** The pipeline does not fault on a point sequence with an elevation array
    of its length. *)
Lemma descent_pipeline_total points eles :
  length eles = length points -> exists r, descent_pipeline points eles = Done r.
Proof.
  intros Hsame. unfold descent_pipeline, best_of_segments.
  apply best_of_segments_total; [assumption|].
  eapply Forall_impl; [|apply findDescentSegments_in_range]. cbn. intros g Hg. lia.
Qed.

(** ** Route aggregators *)

Lemma analyzeToppturTour_result t r :
  analyzeToppturTour t = Done (Some r) ->
  exists coords,
    t_coordinates t = Some coords
    /\ tour_descent (map to_point coords) = Done (Some (r_descent r), r_score r).
Proof.
  unfold analyzeToppturTour. destruct (t_coordinates t) as [coords|]; [|discriminate].
  destruct (length coords <? 5)%nat; [discriminate|].
  destruct coords as [|c0 rest] eqn:Ec; [discriminate|].
  destruct (outside_bbox c0); [discriminate|].
  destruct (get_point (map to_point (c0 :: rest)) 0) as [|p0]; [discriminate|]. cbn [bind].
  destruct (Rltb MAX_DRIVE_KM _); [discriminate|].
  destruct (tour_descent (map to_point (c0 :: rest))) as [|[[a|] sc]] eqn:Etd;
    cbn [bind fst snd]; try discriminate.
  intros H. injection H as <-. exists (c0 :: rest). split; [reflexivity | exact Etd].
Qed.

(** *** C9 *)

(** C9.  For every catalog route on which forward segmentation finds no
    segment, the best analysis and score the aggregator keeps are those of the
    segmentation, evaluation and scoring pipeline run on the reversed point
    sequence with the reversed elevation array, and so equal what the
    aggregator keeps for the route with its points given in reverse; that one
    reversed attempt is the whole result.  When forward segmentation finds a
    segment, the result is the pipeline's on the points as given and the
    reversed sequence is not looked at.  The descent and score of every
    catalog result are the ones so obtained. *)
Theorem tour_descent_fallback (points : list point) :
  (findDescentSegments (map ele points) = [] ->
     tour_descent points = descent_pipeline (rev points) (rev (map ele points))
     /\ tour_descent points = tour_descent (rev points))
  /\ (findDescentSegments (map ele points) <> [] ->
      tour_descent points = descent_pipeline points (map ele points))
  /\ (forall t r,
        analyzeToppturTour t = Done (Some r) ->
        exists coords,
          t_coordinates t = Some coords
          /\ tour_descent (map to_point coords) = Done (Some (r_descent r), r_score r)).
Proof.
  split; [|split; [|exact analyzeToppturTour_result]].
  - intros Hnone.
    assert (H1 : tour_descent points =
                 best_of_segments (rev points) (map ele (rev points))
                   (findDescentSegments (map ele (rev points)))).
    { unfold tour_descent. rewrite Hnone. reflexivity. }
    split.
    + rewrite H1. unfold descent_pipeline. rewrite map_rev. reflexivity.
    + rewrite H1. unfold tour_descent.
      destruct (findDescentSegments (map ele (rev points))) as [|g l] eqn:Erev.
      * cbn [length Nat.eqb]. rewrite rev_involutive, Hnone. reflexivity.
      * reflexivity.
  - intros Hsome. unfold tour_descent, descent_pipeline.
    destruct (findDescentSegments (map ele points)) as [|g l]; [congruence | reflexivity].
Qed.

Lemma climb3_no_forward_segment : findDescentSegments (map ele climb3) = [].
Proof. unfold climb3. cbn [map ele]. run_finder. reflexivity. Qed.

Lemma tour_descent_fallback_witness :
  tour_descent climb3 = descent_pipeline (rev climb3) (rev (map ele climb3))
  /\ tour_descent climb3 = tour_descent (rev climb3).
Proof.
  exact (proj1 (tour_descent_fallback climb3) climb3_no_forward_segment).
Defined.

(** *** C10 *)

(** C10.  For every catalog route, every sample the adapter makes has a
    non-null elevation, the third coordinate when it is a number other than
    0, and 0 when it is missing, undefined, null or 0; and the elevation array
    handed to segmentation is the array of these elevations as they are, with
    no smoothing: forward segmentation runs on it, and the fallback on its
    reverse. *)
Theorem tour_elevations_raw (coords : list coord) :
  Forall (fun p => ele p <> None) (map to_point coords)
  /\ map ele (map to_point coords) = map (fun c => Some (js_or_zero (c_ele c))) coords
  /\ (js_or_zero JUndefined = 0 /\ js_or_zero JNull = 0 /\ js_or_zero (JNumber 0) = 0
      /\ forall r, js_or_zero (JNumber r) = r)
  /\ (let raw := map (fun c => Some (js_or_zero (c_ele c))) coords in
      tour_descent (map to_point coords) =
      if (length (findDescentSegments raw) =? 0)%nat
      then best_of_segments (rev (map to_point coords)) (rev raw) (findDescentSegments (rev raw))
      else best_of_segments (map to_point coords) raw (findDescentSegments raw)).
Proof.
  assert (Hraw : map ele (map to_point coords) = map (fun c => Some (js_or_zero (c_ele c))) coords).
  { rewrite map_map. reflexivity. }
  split; [|split; [exact Hraw | split]].
  - apply Forall_forall. intros p Hp. apply in_map_iff in Hp. destruct Hp as (c & <- & _).
    discriminate.
  - repeat split; reflexivity.
  - cbn zeta. unfold tour_descent. rewrite map_rev, Hraw. reflexivity.
Qed.

(** *** C2 *)

(** C2 (as amended).  A local track with fewer than 50 points is skipped
    before smoothing and segmentation and adds no scored result to the
    results of its source.  A catalog route is skipped in that way when it
    has no coordinates or fewer than 5 of them. *)
Theorem short_routes_skipped :
  (forall f : gpx_track,
      (length (g_points f) < 50)%nat ->
      analyzeGpxTrack f = Done None
      /\ forall files, analyzeGpxTracks (f :: files) = analyzeGpxTracks files)
  /\ (forall t : tour,
        match t_coordinates t with
        | None => True
        | Some coordinates => (length coordinates < 5)%nat
        end ->
        analyzeToppturTour t = Done None
        /\ forall allTours, analyzeToppturTours (t :: allTours) = analyzeToppturTours allTours).
Proof.
  split.
  - intros f H.
    assert (Hskip : analyzeGpxTrack f = Done None).
    { unfold analyzeGpxTrack.
      destruct (Nat.ltb_spec (length (g_points f)) 50); [reflexivity | lia]. }
    split; [exact Hskip|]. intros files. unfold analyzeGpxTracks. cbn [collect].
    rewrite Hskip. cbn [bind]. destruct (collect analyzeGpxTrack files); reflexivity.
  - intros t H.
    assert (Hskip : analyzeToppturTour t = Done None).
    { unfold analyzeToppturTour.
      destruct (t_coordinates t) as [coordinates|]; [|reflexivity].
      destruct (Nat.ltb_spec (length coordinates) 5); [reflexivity | lia]. }
    split; [exact Hskip|]. intros allTours. unfold analyzeToppturTours. cbn [collect].
    rewrite Hskip. cbn [bind]. destruct (collect analyzeToppturTour allTours); reflexivity.
Qed.

Lemma short_routes_skipped_witness :
  analyzeGpxTrack (mkGpx [mkPoint 69.5 19 (Some 600); mkPoint 69.5 19 (Some 100)]
                     String.EmptyString None String.EmptyString) = Done None
  /\ forall files,
       analyzeGpxTracks (mkGpx [mkPoint 69.5 19 (Some 600); mkPoint 69.5 19 (Some 100)]
                           String.EmptyString None String.EmptyString :: files)
       = analyzeGpxTracks files.
Proof.
  apply (proj1 short_routes_skipped
           (mkGpx [mkPoint 69.5 19 (Some 600); mkPoint 69.5 19 (Some 100)]
              String.EmptyString None String.EmptyString)).
  cbn. lia.
Defined.

(** *** Distances along a meridian *)

(** Between two points of the same longitude the haversine distance is the
    arc of the meridian. *)
Lemma haversineKm_same_lon lat1 lat2 lon0 :
  0 <= lat2 - lat1 < 180 ->
  haversineKm lat1 lon0 lat2 lon0 = 6371 * ((lat2 - lat1) * PI / 180).
Proof.
  intros Hd. unfold haversineKm.
  pose proof PI_RGT_0 as Hpi.
  replace ((lon0 - lon0) * PI / 180 / 2) with 0 by lra. rewrite sin_0.
  set (x := (lat2 - lat1) * PI / 180 / 2).
  assert (Hlo : 0 <= (lat2 - lat1) * PI) by (apply Rmult_le_pos; lra).
  assert (Hhi : (lat2 - lat1) * PI < 180 * PI) by (apply Rmult_lt_compat_r; lra).
  assert (Hx : 0 <= x < PI / 2) by (unfold x; lra).
  assert (Hsin : 0 <= sin x) by (apply sin_ge_0; lra).
  assert (Hcos : 0 < cos x) by (apply cos_gt_0; lra).
  replace (sin x ^ 2 + cos (lat1 * PI / 180) * cos (lat2 * PI / 180) * 0 ^ 2)
    with (sin x ^ 2) by ring.
  replace (1 - sin x ^ 2) with (cos x ^ 2)
    by (pose proof (sin2_cos2 x) as H; unfold Rsqr in H; lra).
  rewrite !sqrt_pow2 by lra.
  unfold atan2. rewrite Rltb_true by lra.
  change (sin x / cos x) with (tan x). rewrite atan_tan by lra.
  unfold x. lra.
Qed.

Lemma descentScore_at_least_1 a :
  steepSegment a = None -> 12 <= verticalDrop a -> 1 <= descentScore (Some a).
Proof.
  intros Hss Hvd. unfold descentScore. rewrite Hss.
  assert (Hmin : 1 <= Rmin (verticalDrop a) 1200 / 12).
  { unfold Rmin. destruct (Rle_dec (verticalDrop a) 1200); lra. }
  assert (Hmax : 0 <= Rmax 0 (50 - Rabs (avgGradientDeg a - 30) * 5)) by apply Rmax_l.
  assert (Hround : 10 <= js_round
            ((0 + Rmin (verticalDrop a) 1200 / 12 +
              Rmax 0 (50 - Rabs (avgGradientDeg a - 30) * 5)) * 10)).
  { apply Rle_trans with (js_round 10).
    - rewrite (js_round_IZR 10). lra.
    - apply js_round_le. lra. }
  lra.
Qed.

(** The hop of the five-point tour from its first to its second point, in
    metres: about 22 m. *)
Lemma five_point_tour_hop :
  hop_m (mkPoint 69.6492 18.9553 (Some 300)) (mkPoint 69.6494 18.9553 (Some 0))
  = 6371 * ((69.6494 - 69.6492) * PI / 180) * 1000
  /\ 10 <= 6371 * ((69.6494 - 69.6492) * PI / 180) * 1000 < 50.
Proof.
  split.
  - unfold hop_m. cbn [lat lon]. rewrite haversineKm_same_lon by lra. reflexivity.
  - pose proof PI2_1. pose proof PI_4. lra.
Qed.

Lemma five_point_tour_points :
  map to_point
    [mkCoord 18.9553 69.6492 (JNumber 300); mkCoord 18.9553 69.6494 (JNumber 0);
     mkCoord 18.9553 69.6494 JUndefined; mkCoord 18.9553 69.6494 JNull;
     mkCoord 18.9553 69.6494 (JNumber 0)]
  = five_points.
Proof. reflexivity. Qed.

Lemma five_points_segments :
  findDescentSegments (map ele five_points) = [mkSegment 0 1 (300 - 0)].
Proof. unfold five_points. cbn [map ele]. run_finder. reflexivity. Qed.

Lemma five_points_analysis :
  exists an,
    analyzeDescentSegment five_points (map ele five_points) 0 1 = Done (Some an)
    /\ steepSegment an = None /\ verticalDrop an = 300.
Proof.
  destruct five_point_tour_hop as [Hhop Hbounds].
  unfold analyzeDescentSegment, findLongestSteepSegment, build_chunks, for_uptoM.
  change (Z.to_nat (Z.of_nat 1 + 1 - Z.of_nat (0 + 1))) with 1%nat.
  cbn [for_stepsM]. unfold dist_body, chunk_body, segDist_at, get_point, five_points.
  cbn [Nat.add Nat.sub nth_error bind]. rewrite Hhop.
  rewrite (Rltb_false 2000) by lra. cbn [bind].
  rewrite Rltb_false by lra.
  cbn [map ele num_ele nth_error bind k_chunkDist k_chunks k_chunkStartI].
  unfold CHUNK_DIST_M. rewrite Rleb_false by lra. cbn [bind k_chunks].
  change (longest_run []) with (mkRuns 0 0 0 0). cbn [bestLen Nat.eqb bind].
  eexists. split; [reflexivity|]. split; [reflexivity|].
  cbn [verticalDrop]. replace (300 - 0) with 300 by lra. apply (js_round_IZR 300).
Qed.

Lemma five_points_descent :
  exists an sc, tour_descent five_points = Done (Some an, sc).
Proof.
  destruct five_points_analysis as (an & Han & Hss & Hvd).
  exists an, (descentScore (Some an)).
  unfold tour_descent. rewrite five_points_segments. cbn [length Nat.eqb].
  unfold best_of_segments. cbn [forEachM]. unfold best_body. cbn [peakI troughI].
  rewrite Han. cbn [bind snd].
  pose proof (descentScore_at_least_1 an Hss ltac:(lra)) as Hscore.
  rewrite Rltb_true by lra. reflexivity.
Qed.

(** The claim as worded fails for the catalog: a route of five samples, far
    fewer than 50, passes the length test of the catalog loop (fewer than 5),
    is segmented, and yields a scored result. *)
Lemma five_point_tour_scored :
  t_coordinates five_point_tour <> None
  /\ (forall coordinates, t_coordinates five_point_tour = Some coordinates ->
        length coordinates = 5%nat)
  /\ exists r, analyzeToppturTour five_point_tour = Done (Some r).
Proof.
  split; [discriminate|]. split.
  { intros coordinates H. injection H as <-. reflexivity. }
  destruct five_points_descent as (an & sc & Hdescent).
  unfold analyzeToppturTour, five_point_tour.
  cbn [t_coordinates length Nat.ltb Nat.leb t_name t_id t_place t_ates].
  unfold outside_bbox, TROMSO_minLat, TROMSO_maxLat, TROMSO_minLon, TROMSO_maxLon.
  cbn [c_lat c_lon]. decide_cmp. cbn [orb].
  rewrite five_point_tour_points, Hdescent.
  unfold five_points, TROMSO_lat, TROMSO_lon, MAX_DRIVE_KM.
  cbn [get_point nth_error bind lat lon].
  rewrite haversineKm_same_lon by lra.
  rewrite Rltb_false by lra.
  cbn [bind fst snd]. eauto.
Qed.

(** * Further properties of the analysis *)

(** ** Elevation smoother *)










(** ** Distances *)

Lemma atan_nonneg x : 0 <= x -> 0 <= atan x.
Proof.
  intros [H|<-].
  - rewrite <- atan_0. left. now apply atan_increasing.
  - rewrite atan_0. lra.
Qed.

Lemma atan2_first_quadrant y x : 0 <= y -> 0 <= x -> 0 <= atan2 y x <= PI / 2.
Proof.
  intros Hy Hx. pose proof PI_RGT_0 as Hpi. unfold atan2.
  destruct (Rltb_spec 0 x) as [Hpos|Hzero].
  - pose proof (atan_bound (y / x)) as Hb.
    assert (0 <= y / x) by (apply Rmult_le_pos; [lra | left; now apply Rinv_0_lt_compat]).
    pose proof (atan_nonneg (y / x)). lra.
  - rewrite Rltb_false by lra.
    destruct (Rltb_spec 0 y); [lra|]. rewrite Rltb_false by lra. lra.
Qed.

Lemma haversine_term_sym u v :
  sin ((u - v) * PI / 180 / 2) ^ 2 = sin ((v - u) * PI / 180 / 2) ^ 2.
Proof.
  replace ((u - v) * PI / 180 / 2) with (- ((v - u) * PI / 180 / 2)) by lra.
  rewrite sin_neg. ring.
Qed.

Lemma haversineKm_range lat1 lon1 lat2 lon2 :
  0 <= haversineKm lat1 lon1 lat2 lon2 <= 6371 * PI.
Proof.
  unfold haversineKm.
  match goal with
  | |- context [atan2 ?y ?x] =>
      pose proof (atan2_first_quadrant y x (sqrt_pos _) (sqrt_pos _)) as Hq
  end.
  lra.
Qed.

Lemma haversineKm_sym lat1 lon1 lat2 lon2 :
  haversineKm lat1 lon1 lat2 lon2 = haversineKm lat2 lon2 lat1 lon1.
Proof.
  unfold haversineKm.
  rewrite (haversine_term_sym lat2 lat1), (haversine_term_sym lon2 lon1).
  rewrite (Rmult_comm (cos (lat1 * PI / 180)) (cos (lat2 * PI / 180))). reflexivity.
Qed.

(** X3.  The haversine distance does not depend on the order of its two
    points, is 0 from a point to itself, and lies between 0 and half the
    circumference of the sphere, [6371 * PI] km. *)
Theorem haversineKm_metric_bounds :
  (forall lat1 lon1 lat2 lon2,
      haversineKm lat1 lon1 lat2 lon2 = haversineKm lat2 lon2 lat1 lon1)
  /\ (forall lat1 lon1, haversineKm lat1 lon1 lat1 lon1 = 0)
  /\ (forall lat1 lon1 lat2 lon2, 0 <= haversineKm lat1 lon1 lat2 lon2 <= 6371 * PI).
Proof.
  split; [|split].
  - intros lat1 lon1 lat2 lon2. unfold haversineKm.
    rewrite (haversine_term_sym lat2 lat1), (haversine_term_sym lon2 lon1).
    rewrite (Rmult_comm (cos (lat1 * PI / 180)) (cos (lat2 * PI / 180))). reflexivity.
  - intros lat1 lon1. rewrite haversineKm_same_lon by lra. lra.
  - exact haversineKm_range.
Qed.

(** X4.  Between two points of one longitude whose latitudes differ by less
    than 180 degrees, in either order, the haversine distance is the length
    of the meridian arc between them, [6371 * |lat2 - lat1| * PI / 180] km. *)
Theorem haversineKm_along_meridian (lat1 lat2 lon0 : R) :
  Rabs (lat2 - lat1) < 180 ->
  haversineKm lat1 lon0 lat2 lon0 = 6371 * (Rabs (lat2 - lat1) * PI / 180).
Proof.
  intros H. destruct (Rle_lt_dec lat1 lat2) as [Hle|Hgt].
  - rewrite Rabs_right in * by lra. apply haversineKm_same_lon. lra.
  - rewrite Rabs_left in * by lra.
    rewrite haversineKm_sym, haversineKm_same_lon by lra. lra.
Qed.

Lemma haversineKm_along_meridian_witness :
  haversineKm 70 19 69 19 = 6371 * (Rabs (69 - 70) * PI / 180).
Proof.
  apply (haversineKm_along_meridian 70 69 19).
  rewrite Rabs_left by lra. lra.
Defined.

(** ** Scorer *)

Lemma js_round_tenths_bounds x (lo hi : Z) :
  IZR lo <= x <= IZR hi -> IZR lo / 10 <= js_round x / 10 <= IZR hi / 10.
Proof.
  intros [Hlo Hhi].
  pose proof (js_round_le _ _ Hlo) as H1. pose proof (js_round_le _ _ Hhi) as H2.
  rewrite js_round_IZR in H1, H2. lra.
Qed.

Lemma descentScore_upper a : descentScore (Some a) <= 200.
Proof.
  unfold descentScore.
  pose proof (Rmin_r (verticalDrop a) 1200) as Hmin.
  pose proof (Rmax_0_upper (avgGradientDeg a)) as Hmax.
  replace 200 with (IZR 2000 / 10) by lra. apply Rmult_le_compat_r; [lra|].
  rewrite <- (js_round_IZR 2000). apply js_round_le.
  destruct (steepSegment a) as [ss|]; [pose proof (Rmin_r (s_verticalDrop ss) 500)|]; lra.
Qed.

(** X5.  The score is never above 200; it is 0 for an absent analysis; and it
    is not negative when the vertical drop of the analysis and that of its
    steep sub-run, if it has one, are not negative. *)
Theorem descentScore_range :
  descentScore None = 0
  /\ (forall a, descentScore (Some a) <= 200)
  /\ (forall a,
        0 <= verticalDrop a ->
        match steepSegment a with Some ss => 0 <= s_verticalDrop ss | None => True end ->
        0 <= descentScore (Some a)).
Proof.
  split; [reflexivity|]. split; [exact descentScore_upper|].
  intros a Hvd Hss. unfold descentScore.
  assert (Hmin : 0 <= Rmin (verticalDrop a) 1200) by (apply Rmin_glb; lra).
  pose proof (Rmax_l 0 (50 - Rabs (avgGradientDeg a - 30) * 5)) as Hmax.
  apply Rle_trans with (js_round 0 / 10); [rewrite (js_round_IZR 0); lra|].
  apply Rmult_le_compat_r; [lra|]. apply js_round_le.
  destruct (steepSegment a) as [ss|].
  - assert (0 <= Rmin (s_verticalDrop ss) 500) by (apply Rmin_glb; lra). lra.
  - lra.
Qed.

Lemma descentScore_range_witness :
  0 <= descentScore (Some (mkAnalysis 300 1000 28 900 600 None)).
Proof.
  apply (proj2 (proj2 descentScore_range) (mkAnalysis 300 1000 28 900 600 None)).
  - cbn. lra.
  - exact I.
Defined.

(** ** Descent segment finder *)

Lemma findDescentSegments_ok s : Forall (segment_ok s) (findDescentSegments s).
Proof.
  unfold findDescentSegments. destruct (finder_inv_final s) as [i Hinv].
  now destruct (finder_inv_push s i _ Hinv) as (Hok & _ & _).
Qed.









(** ** Steep segment analyzer *)

Lemma chunk_loop_wf points smoothEle peakI n : forall j st st',
  for_stepsM n j (chunk_body points smoothEle) st = Done st' ->
  (peakI <= k_chunkStartI st < j)%nat ->
  Forall (chunk_wf smoothEle peakI (j + n - 1)) (k_chunks st) ->
  Forall (chunk_wf smoothEle peakI (j + n - 1)) (k_chunks st').
Proof.
  induction n as [|n IH]; intros j st st' Hrun Hstart Hwf.
  - cbn in Hrun. injection Hrun as <-. exact Hwf.
  - cbn [for_stepsM] in Hrun.
    replace (j + S n - 1)%nat with (S j + n - 1)%nat in * by lia.
    destruct (chunk_body points smoothEle j st) as [|st1] eqn:Hbody; [discriminate|].
    cbn [bind] in Hrun. apply (IH (S j) st1 st' Hrun); clear Hrun IH.
    + unfold chunk_body in Hbody.
      destruct (segDist_at points j) as [|d]; [discriminate|]. cbn [bind] in Hbody.
      destruct (Rltb 2000 d); [injection Hbody as <-; lia|].
      destruct (Rleb CHUNK_DIST_M (k_chunkDist st + d)); [|injection Hbody as <-; cbn; lia].
      destruct (read_ele smoothEle (k_chunkStartI st)) as [|se]; [discriminate|].
      destruct (read_ele smoothEle j) as [|ee]; [discriminate|].
      cbn [bind] in Hbody. injection Hbody as <-. cbn. lia.
    + unfold chunk_body in Hbody.
      destruct (segDist_at points j) as [|d]; [discriminate|]. cbn [bind] in Hbody.
      destruct (Rltb 2000 d); [injection Hbody as <-; exact Hwf|].
      destruct (Rleb_spec CHUNK_DIST_M (k_chunkDist st + d)) as [Hfull|];
        [|injection Hbody as <-; exact Hwf].
      unfold read_ele in Hbody.
      destruct (nth_error smoothEle (k_chunkStartI st)) as [se|] eqn:Hse; [|discriminate].
      destruct (nth_error smoothEle j) as [ee|] eqn:Hee; [|discriminate].
      cbn [bind] in Hbody. injection Hbody as <-. cbn [k_chunks].
      destruct se as [s|]; [|exact Hwf]. destruct ee as [e|]; [|exact Hwf].
      destruct (Rltb 0 (k_chunkDist st + d)); [|exact Hwf].
      apply Forall_app. split; [exact Hwf|]. constructor; [|constructor].
      unfold chunk_wf. cbn [startI endI dist c_drop grad].
      repeat split; try lia; try assumption. exists s, e. repeat split; assumption.
Qed.

Lemma build_chunks_wf points smoothEle peakI troughI chunks :
  build_chunks points smoothEle peakI troughI = Done chunks ->
  Forall (chunk_wf smoothEle peakI troughI) chunks.
Proof.
  unfold build_chunks, for_uptoM. intros H.
  replace (Z.to_nat (Z.of_nat troughI + 1 - Z.of_nat (peakI + 1))) with (troughI - peakI)%nat
    in H by lia.
  destruct (for_stepsM (troughI - peakI) (peakI + 1) (chunk_body points smoothEle)
              (mkChunker [] peakI 0)) as [|st'] eqn:Hrun; [discriminate|].
  cbn [bind] in H. injection H as <-.
  destruct (Nat.le_gt_cases troughI peakI) as [Hle|Hgt].
  - replace (troughI - peakI)%nat with 0%nat in Hrun by lia. cbn in Hrun.
    injection Hrun as <-. constructor.
  - pose proof (chunk_loop_wf points smoothEle peakI (troughI - peakI) (peakI + 1) _ _ Hrun) as Hwf.
    replace (peakI + 1 + (troughI - peakI) - 1)%nat with troughI in Hwf by lia.
    apply Hwf; cbn; [lia | constructor].
Qed.

(** An in-band chunk of the loop drops: its gradient is that of its drop. *)
Lemma chunk_in_band_drop smoothEle peakI troughI ch :
  chunk_wf smoothEle peakI troughI ch -> in_band ch = true ->
  0 < dist ch /\ 0 < c_drop ch /\
  STEEP_MIN_DEG <= atan (c_drop ch / dist ch) * (180 / PI) <= STEEP_MAX_DEG.
Proof.
  intros (_ & _ & _ & Hdist & Hgrad) Hband. apply in_band_bounds in Hband.
  unfold CHUNK_DIST_M in Hdist. unfold STEEP_MIN_DEG, STEEP_MAX_DEG in *.
  rewrite Hgrad in Hband.
  destruct (Rle_lt_dec (c_drop ch) 0) as [Hup|Hdown].
  - exfalso. rewrite Rmax_left in Hband by assumption.
    replace (0 / dist ch) with 0 in Hband by (unfold Rdiv; ring).
    rewrite atan_0 in Hband. lra.
  - rewrite Rmax_right in Hband by lra. repeat split; lra.
Qed.

Lemma Rsum_scaled_le (l : list chunk) (a : R) :
  (forall ch, In ch l -> a * dist ch <= c_drop ch) ->
  a * Rsum (map dist l) <= Rsum (map c_drop l).
Proof.
  induction l as [|x l IH]; intros H; cbn [map Rsum fold_right].
  - lra.
  - pose proof (H x (or_introl eq_refl)).
    assert (Hl : forall ch, In ch l -> a * dist ch <= c_drop ch) by (intros; apply H; now right).
    specialize (IH Hl). unfold Rsum in IH. lra.
Qed.

Lemma Rsum_scaled_ge (l : list chunk) (a : R) :
  (forall ch, In ch l -> c_drop ch <= a * dist ch) ->
  Rsum (map c_drop l) <= a * Rsum (map dist l).
Proof.
  induction l as [|x l IH]; intros H; cbn [map Rsum fold_right].
  - lra.
  - pose proof (H x (or_introl eq_refl)).
    assert (Hl : forall ch, In ch l -> c_drop ch <= a * dist ch) by (intros; apply H; now right).
    specialize (IH Hl). unfold Rsum in IH. lra.
Qed.

Lemma Rsum_dist_pos (l : list chunk) (d : R) :
  l <> [] -> 0 < d -> (forall ch, In ch l -> d <= dist ch) -> d <= Rsum (map dist l).
Proof.
  intros Hne Hd H. destruct l as [|x l]; [congruence|]. clear Hne.
  revert x H. induction l as [|y l IH]; intros x H; cbn [map Rsum fold_right].
  - pose proof (H x (or_introl eq_refl)). lra.
  - pose proof (H x (or_introl eq_refl)).
    assert (Hl : forall ch, In ch (y :: l) -> d <= dist ch) by (intros; apply H; now right).
    specialize (IH y Hl). cbn [map Rsum fold_right] in IH. unfold Rsum in IH. lra.
Qed.

Lemma atan_le x y : x <= y -> atan x <= atan y.
Proof. intros [H| ->]; [left; now apply atan_increasing | lra]. Qed.

Lemma atan_le_inv x y : atan x <= atan y -> x <= y.
Proof.
  intros H. destruct (Rle_lt_dec x y) as [Hle|Hlt]; [assumption|].
  apply atan_increasing in Hlt. lra.
Qed.

(** The angle of a sum of drops over a sum of distances lies between the
    bounds of the angles of the parts. *)
Lemma atan_mediant (l : list chunk) (L U : R) :
  l <> [] ->
  (forall ch, In ch l -> 0 < dist ch /\ L <= atan (c_drop ch / dist ch) <= U) ->
  L <= atan (Rsum (map c_drop l) / Rsum (map dist l)) <= U.
Proof.
  intros Hne H.
  destruct l as [|x0 l0] eqn:El; [congruence|]. rewrite <- El in *.
  assert (Hx0 : In x0 l) by (rewrite El; now left).
  destruct (H x0 Hx0) as (Hd0 & HL0 & HU0).
  assert (HS : 0 < Rsum (map dist l)).
  { clear - H El Hd0. rewrite El. rewrite El in H. clear El.
    assert (Hall : forall ch, In ch (x0 :: l0) -> 0 < dist ch) by (intros ch Hch; apply H, Hch).
    clear H l. revert x0 Hd0 Hall. induction l0 as [|y l1 IH]; intros x0 Hd0 Hall.
    - cbn. lra.
    - cbn [map Rsum fold_right].
      assert (Hy : 0 < dist y) by (apply Hall; right; now left).
      assert (Hl : forall ch, In ch (y :: l1) -> 0 < dist ch) by (intros; apply Hall; now right).
      specialize (IH y Hy Hl). cbn [map Rsum fold_right] in IH. unfold Rsum in IH. lra. }
  pose proof (atan_bound (Rsum (map c_drop l) / Rsum (map dist l))) as Hb.
  pose proof (atan_bound (c_drop x0 / dist x0)) as Hb0.
  split.
  - destruct (Rle_lt_dec L (- (PI / 2))) as [Hlow|Hin]; [lra|].
    rewrite <- (atan_tan L) by lra. apply atan_le.
    apply Rmult_le_reg_r with (Rsum (map dist l)); [assumption|].
    unfold Rdiv. rewrite Rmult_assoc, Rinv_l by lra. rewrite Rmult_1_r.
    apply Rsum_scaled_le. intros ch Hch. destruct (H ch Hch) as (Hd & HLc & _).
    rewrite <- (atan_tan L) in HLc by lra. apply atan_le_inv in HLc.
    apply Rmult_le_compat_r with (r := dist ch) in HLc; [|lra].
    unfold Rdiv in HLc. rewrite Rmult_assoc, Rinv_l, Rmult_1_r in HLc by lra. exact HLc.
  - destruct (Rle_lt_dec (PI / 2) U) as [Hhigh|Hin]; [lra|].
    rewrite <- (atan_tan U) by lra. apply atan_le.
    apply Rmult_le_reg_r with (Rsum (map dist l)); [assumption|].
    unfold Rdiv. rewrite Rmult_assoc, Rinv_l by lra. rewrite Rmult_1_r.
    apply Rsum_scaled_ge. intros ch Hch. destruct (H ch Hch) as (Hd & _ & HUc).
    rewrite <- (atan_tan U) in HUc by lra. apply atan_le_inv in HUc.
    apply Rmult_le_compat_r with (r := dist ch) in HUc; [|lra].
    unfold Rdiv in HUc. rewrite Rmult_assoc, Rinv_l, Rmult_1_r in HUc by lra. exact HUc.
Qed.

Lemma deg_scale_pos : 0 < 180 / PI.
Proof. pose proof PI_RGT_0. apply Rdiv_lt_0_compat; lra. Qed.

Lemma deg_of_rad_bounds (a lo hi : R) :
  lo * (PI / 180) <= a <= hi * (PI / 180) <-> lo <= a * (180 / PI) <= hi.
Proof.
  pose proof PI_RGT_0 as Hpi. pose proof deg_scale_pos as Hk.
  assert (Hlo : lo * (PI / 180) * (180 / PI) = lo) by (field; lra).
  assert (Hhi : hi * (PI / 180) * (180 / PI) = hi) by (field; lra).
  split; intros [H1 H2].
  - split.
    + rewrite <- Hlo. apply Rmult_le_compat_r; lra.
    + rewrite <- Hhi. apply Rmult_le_compat_r; lra.
  - split.
    + apply Rmult_le_reg_r with (180 / PI); [assumption|]. lra.
    + apply Rmult_le_reg_r with (180 / PI); [assumption|]. lra.
Qed.

(** The totals of a non-empty run of in-band chunks of the loop. *)
Lemma steep_run_totals smoothEle peakI troughI (run : list chunk) :
  run <> [] ->
  (forall ch, In ch run -> chunk_wf smoothEle peakI troughI ch /\ in_band ch = true) ->
  STEEP_MIN_DEG <= atan (Rsum (map c_drop run) / Rsum (map dist run)) * (180 / PI) <= STEEP_MAX_DEG
  /\ 0 <= Rsum (map c_drop run)
  /\ CHUNK_DIST_M <= Rsum (map dist run).
Proof.
  intros Hne Hall.
  assert (Hparts : forall ch, In ch run ->
            0 < dist ch /\
            STEEP_MIN_DEG * (PI / 180) <= atan (c_drop ch / dist ch) <= STEEP_MAX_DEG * (PI / 180)).
  { intros ch Hch. destruct (Hall ch Hch) as [Hw Hband].
    destruct (chunk_in_band_drop _ _ _ _ Hw Hband) as (Hd & _ & Hg).
    split; [assumption | now apply deg_of_rad_bounds]. }
  pose proof (atan_mediant run _ _ Hne Hparts) as Hmed.
  apply deg_of_rad_bounds in Hmed.
  split; [exact Hmed|]. split.
  - pose proof (Rsum_scaled_le run 0) as Hs. rewrite Rmult_0_l in Hs. apply Hs.
    intros ch Hch. destruct (Hall ch Hch) as [Hw Hband].
    destruct (chunk_in_band_drop _ _ _ _ Hw Hband) as (_ & Hdrop & _). lra.
  - apply Rsum_dist_pos; [assumption | unfold CHUNK_DIST_M; lra |].
    intros ch Hch. now destruct (Hall ch Hch) as [(_ & _ & _ & Hd & _) _].
Qed.

(** The chunks of the selected run are chunks of the list, and in the band. *)
Lemma selected_run_members (chunks : list chunk) (P : chunk -> Prop) :
  Forall P chunks ->
  forall ch, In ch (slice (bestStart (longest_run chunks)) (bestLen (longest_run chunks)) chunks) ->
             P ch /\ in_band ch = true.
Proof.
  intros HP ch Hch.
  destruct (longest_run_inv chunks) as [[_ Hrun] _ _ _ _ _ _ _].
  apply In_nth_error in Hch. destruct Hch as [i Hi]. rewrite nth_error_slice in Hi.
  destruct (Nat.ltb_spec i (bestLen (longest_run chunks))) as [Hlt|]; [|discriminate].
  destruct (Hrun (bestStart (longest_run chunks) + i)%nat ltac:(lia)) as (ch' & Hch' & Hband).
  rewrite Hch' in Hi. injection Hi as <-. split; [|assumption].
  rewrite Forall_forall in HP. apply HP. now apply nth_error_In in Hch'.
Qed.

(** X8.  Whenever the steep segment analyzer returns a sub-run, the sub-run's
    average gradient lies in the steep band, from [STEEP_MIN_DEG] = 25 to
    [STEEP_MAX_DEG] = 35 degrees, its vertical drop is not negative and its
    horizontal distance is at least one chunk, [CHUNK_DIST_M] = 50 m. *)
Theorem steep_segment_in_band points smoothEle peakI troughI ss :
  findLongestSteepSegment points smoothEle peakI troughI = Done (Some ss) ->
  STEEP_MIN_DEG <= s_avgGradientDeg ss <= STEEP_MAX_DEG
  /\ 0 <= s_verticalDrop ss
  /\ CHUNK_DIST_M <= s_horizDistM ss.
Proof.
  unfold findLongestSteepSegment.
  destruct (build_chunks points smoothEle peakI troughI) as [|chunks] eqn:Hb; [discriminate|].
  cbn [bind]. pose proof (build_chunks_wf _ _ _ _ _ Hb) as Hwf.
  destruct (bestLen (longest_run chunks) =? 0)%nat; [discriminate|].
  pose proof (selected_run_members chunks _ Hwf) as Hall.
  set (run := slice _ _ chunks) in *.
  destruct (nth_error run 0) as [first|] eqn:Hfirst; [|discriminate].
  assert (Hne : run <> []) by (intros E; rewrite E in Hfirst; discriminate).
  destruct (nth_error run (length run - 1)) as [last|]; [|discriminate].
  destruct (num_ele smoothEle (startI first)) as [|se]; [discriminate|]. cbn [bind].
  destruct (num_ele smoothEle (endI last)) as [|ee]; [discriminate|]. cbn [bind].
  intros H. injection H as <-. cbn [s_avgGradientDeg s_verticalDrop s_horizDistM].
  rewrite !fold_left_sum, !Rplus_0_l.
  destruct (steep_run_totals smoothEle peakI troughI run Hne Hall) as (Hg & Hd & Hs).
  unfold STEEP_MIN_DEG, STEEP_MAX_DEG, CHUNK_DIST_M in *.
  split; [|split].
  - pose proof (js_round_tenths_bounds
                  (atan (Rsum (map c_drop run) / Rsum (map dist run)) * (180 / PI) * 10)
                  250 350 ltac:(lra)).
    lra.
  - rewrite <- (js_round_IZR 0). now apply js_round_le.
  - rewrite <- (js_round_IZR 50). now apply js_round_le.
Qed.

Lemma chunk_loop_ordered points smoothEle n : forall j st st',
  for_stepsM n j (chunk_body points smoothEle) st = Done st' ->
  (k_chunkStartI st < j)%nat ->
  StronglySorted (fun a b => (endI a <= startI b)%nat) (k_chunks st) ->
  Forall (fun a => (endI a <= k_chunkStartI st)%nat) (k_chunks st) ->
  StronglySorted (fun a b => (endI a <= startI b)%nat) (k_chunks st').
Proof.
  induction n as [|n IH]; intros j st st' Hrun Hstart Hsorted Hbefore.
  - cbn in Hrun. injection Hrun as <-. exact Hsorted.
  - cbn [for_stepsM] in Hrun.
    destruct (chunk_body points smoothEle j st) as [|st1] eqn:Hbody; [discriminate|].
    cbn [bind] in Hrun.
    assert (Hst1 : (k_chunkStartI st1 < S j)%nat
                   /\ StronglySorted (fun a b => (endI a <= startI b)%nat) (k_chunks st1)
                   /\ Forall (fun a => (endI a <= k_chunkStartI st1)%nat) (k_chunks st1)).
    { unfold chunk_body in Hbody.
      destruct (segDist_at points j) as [|d]; [discriminate|]. cbn [bind] in Hbody.
      destruct (Rltb 2000 d); [injection Hbody as <-; repeat split; try assumption; lia|].
      destruct (Rleb CHUNK_DIST_M (k_chunkDist st + d));
        [|injection Hbody as <-; cbn; repeat split; try assumption; lia].
      destruct (read_ele smoothEle (k_chunkStartI st)) as [|se]; [discriminate|].
      destruct (read_ele smoothEle j) as [|ee]; [discriminate|].
      cbn [bind] in Hbody. injection Hbody as <-. cbn [k_chunkStartI k_chunks].
      assert (Hkeep : Forall (fun a => (endI a <= j)%nat) (k_chunks st)).
      { eapply Forall_impl; [|exact Hbefore]. cbn. intros a Ha. lia. }
      split; [lia|].
      destruct se as [s|]; [|split; assumption]. destruct ee as [e|]; [|split; assumption].
      destruct (Rltb 0 (k_chunkDist st + d)); [|split; assumption].
      split.
      - apply StronglySorted_snoc; assumption.
      - apply Forall_app. split; [assumption|]. constructor; [cbn; lia | constructor]. }
    destruct Hst1 as (H1 & H2 & H3). now apply (IH (S j) st1 st' Hrun).
Qed.

(** X9.  Every chunk the analyzer builds on the span of a segment lies inside
    the span with its start before its end, has a non-null elevation at both
    ends and their difference as its drop, covers at least [CHUNK_DIST_M]
    = 50 m, and has the gradient of its drop over its distance, an ascent
    counting as level.  The chunks come in index order and do not overlap:
    each ends where a later one starts, or before. *)
Theorem build_chunks_well_formed points smoothEle peakI troughI chunks :
  build_chunks points smoothEle peakI troughI = Done chunks ->
  Forall (chunk_wf smoothEle peakI troughI) chunks
  /\ StronglySorted (fun a b => (endI a <= startI b)%nat) chunks.
Proof.
  intros H. split; [now apply (build_chunks_wf points)|].
  unfold build_chunks, for_uptoM in H.
  destruct (for_stepsM _ (peakI + 1) (chunk_body points smoothEle) (mkChunker [] peakI 0))
    as [|st'] eqn:Hrun; [discriminate|].
  cbn [bind] in H. injection H as <-.
  apply (chunk_loop_ordered points smoothEle _ _ _ _ Hrun); cbn; [lia | constructor | constructor].
Qed.

(** *** A slope of 30 degrees *)

Lemma slope30_hop_bounds :
  hop_m (mkPoint 69 19 (Some (slope30_hop / sqrt 3))) (mkPoint 69.001 19 (Some 0)) = slope30_hop
  /\ 50 <= slope30_hop <= 2000.
Proof.
  split.
  - unfold hop_m. cbn [lat lon]. rewrite haversineKm_same_lon by lra. reflexivity.
  - unfold slope30_hop. pose proof PI2_1. pose proof PI_4. lra.
Qed.

Lemma slope30_gradient :
  atan (Rmax 0 (slope30_hop / sqrt 3 - 0) / (0 + slope30_hop)) * (180 / PI) = 30.
Proof.
  destruct slope30_hop_bounds as [_ Hd]. pose proof PI_RGT_0 as Hpi.
  assert (Hs : 0 < sqrt 3) by (apply sqrt_lt_R0; lra).
  assert (Hh : 0 < slope30_hop / sqrt 3) by (apply Rdiv_lt_0_compat; lra).
  rewrite Rmax_right by lra.
  replace ((slope30_hop / sqrt 3 - 0) / (0 + slope30_hop)) with (1 / sqrt 3) by (field; lra).
  rewrite <- tan_PI6. rewrite atan_tan by lra. field. lra.
Qed.

Lemma slope30_chunks :
  build_chunks slope30_points (map ele slope30_points) 0 1
  = Done [mkChunk 0 1 (0 + slope30_hop) (slope30_hop / sqrt 3 - 0) 30].
Proof.
  destruct slope30_hop_bounds as [Hhop Hd].
  unfold build_chunks, for_uptoM.
  change (Z.to_nat (Z.of_nat 1 + 1 - Z.of_nat (0 + 1))) with 1%nat.
  cbn [for_stepsM]. unfold chunk_body, segDist_at, get_point, slope30_points.
  cbn [Nat.add Nat.sub nth_error bind]. rewrite Hhop.
  rewrite (Rltb_false 2000) by lra. cbn [k_chunkDist k_chunks k_chunkStartI].
  unfold CHUNK_DIST_M. rewrite Rleb_true by lra.
  cbn [map ele read_ele nth_error bind]. rewrite Rltb_true by lra.
  rewrite slope30_gradient. reflexivity.
Qed.

Lemma slope30_steep_segment :
  exists ss, findLongestSteepSegment slope30_points (map ele slope30_points) 0 1 = Done (Some ss).
Proof.
  unfold findLongestSteepSegment. rewrite slope30_chunks. cbn [bind].
  assert (Hrun : longest_run [mkChunk 0 1 (0 + slope30_hop) (slope30_hop / sqrt 3 - 0) 30]
                 = mkRuns 0 1 0 1) by (run_runs; reflexivity).
  rewrite Hrun. cbn [bestLen bestStart Nat.eqb slice skipn firstn nth_error length Nat.sub].
  unfold slope30_points. cbn [map ele num_ele nth_error startI endI bind]. eauto.
Qed.

Lemma steep_segment_in_band_witness :
  exists ss,
    STEEP_MIN_DEG <= s_avgGradientDeg ss <= STEEP_MAX_DEG
    /\ 0 <= s_verticalDrop ss /\ CHUNK_DIST_M <= s_horizDistM ss.
Proof.
  destruct slope30_steep_segment as [ss Hss]. exists ss.
  exact (steep_segment_in_band slope30_points (map ele slope30_points) 0 1 ss Hss).
Defined.

Lemma build_chunks_well_formed_witness :
  Forall (chunk_wf (map ele slope30_points) 0 1)
    [mkChunk 0 1 (0 + slope30_hop) (slope30_hop / sqrt 3 - 0) 30]
  /\ StronglySorted (fun a b => (endI a <= startI b)%nat)
       [mkChunk 0 1 (0 + slope30_hop) (slope30_hop / sqrt 3 - 0) 30].
Proof.
  exact (build_chunks_well_formed slope30_points (map ele slope30_points) 0 1 _ slope30_chunks).
Defined.

(** ** Descent evaluator *)

Lemma num_ele_sample smoothEle i v : num_ele smoothEle i = Done v -> v = sample_or_zero smoothEle i.
Proof.
  unfold num_ele, sample_or_zero. destruct (nth_error smoothEle i) as [[e|]|]; cbn; congruence.
Qed.

Lemma atan_degrees_bounds x : -90 <= atan x * (180 / PI) <= 90.
Proof.
  pose proof (atan_bound x) as Hb. apply deg_of_rad_bounds. lra.
Qed.

Lemma analyzeDescentSegment_parts points smoothEle peakI troughI a :
  analyzeDescentSegment points smoothEle peakI troughI = Done (Some a) ->
  exists d ss,
    10 <= d
    /\ findLongestSteepSegment points smoothEle peakI troughI = Done ss
    /\ a = mkAnalysis
             (js_round (sample_or_zero smoothEle peakI - sample_or_zero smoothEle troughI))
             (js_round d)
             (js_round (atan ((sample_or_zero smoothEle peakI - sample_or_zero smoothEle troughI) / d)
                        * (180 / PI) * 10) / 10)
             (js_round (sample_or_zero smoothEle peakI))
             (js_round (sample_or_zero smoothEle troughI)) ss.
Proof.
  unfold analyzeDescentSegment.
  destruct (for_uptoM (peakI + 1) (Z.of_nat troughI) (dist_body points) 0) as [|d];
    [discriminate|]. cbn [bind].
  destruct (Rltb_spec d 10) as [|Hd]; [discriminate|].
  destruct (num_ele smoothEle peakI) as [|pe] eqn:Hpe; [discriminate|]. cbn [bind].
  destruct (num_ele smoothEle troughI) as [|te] eqn:Hte; [discriminate|]. cbn [bind].
  destruct (findLongestSteepSegment points smoothEle peakI troughI) as [|ss] eqn:Hss;
    [discriminate|]. cbn [bind].
  intros H. injection H as <-. apply num_ele_sample in Hpe, Hte. subst pe te.
  exists d, ss. repeat split. lra.
Qed.

(** X10.  Every analysis the evaluator returns has a horizontal distance of
    at least 10 m and an average gradient between -90 and 90 degrees; its
    vertical drop and its peak and trough elevations are the rounded values
    of the two samples of the segment, a null sample counting as 0; and its
    steep sub-run is what the steep segment analyzer returns for the
    segment. *)
Theorem analysis_bounds points smoothEle peakI troughI a :
  analyzeDescentSegment points smoothEle peakI troughI = Done (Some a) ->
  10 <= horizDistM a
  /\ -90 <= avgGradientDeg a <= 90
  /\ verticalDrop a = js_round (sample_or_zero smoothEle peakI - sample_or_zero smoothEle troughI)
  /\ peakEle a = js_round (sample_or_zero smoothEle peakI)
  /\ troughEle a = js_round (sample_or_zero smoothEle troughI)
  /\ findLongestSteepSegment points smoothEle peakI troughI = Done (steepSegment a).
Proof.
  intros H. destruct (analyzeDescentSegment_parts _ _ _ _ _ H) as (d & ss & Hd & Hss & ->).
  cbn [horizDistM avgGradientDeg verticalDrop peakEle troughEle steepSegment].
  pose proof (atan_degrees_bounds
                ((sample_or_zero smoothEle peakI - sample_or_zero smoothEle troughI) / d)) as Hb.
  set (g := atan _ * (180 / PI)) in *.
  pose proof (js_round_tenths_bounds (g * 10) (-900) 900 ltac:(lra)) as Hr.
  repeat split; try reflexivity; try assumption; try lra.
  rewrite <- (js_round_IZR 10). apply js_round_le. lra.
Qed.

Lemma analysis_bounds_witness :
  exists a,
    10 <= horizDistM a
    /\ -90 <= avgGradientDeg a <= 90
    /\ verticalDrop a = js_round (sample_or_zero (map ele five_points) 0
                                  - sample_or_zero (map ele five_points) 1)
    /\ peakEle a = js_round (sample_or_zero (map ele five_points) 0)
    /\ troughEle a = js_round (sample_or_zero (map ele five_points) 1)
    /\ findLongestSteepSegment five_points (map ele five_points) 0 1 = Done (steepSegment a).
Proof.
  destruct five_points_analysis as (a & Ha & _). exists a.
  exact (analysis_bounds five_points (map ele five_points) 0 1 a Ha).
Defined.

(** ** Route aggregators *)

Lemma best_fold_spec points eles segs : forall best r,
  forEachM (best_body points eles) segs best = Done r ->
  snd best <= snd r
  /\ (forall g a, In g segs ->
        analyzeDescentSegment points eles (peakI g) (troughI g) = Done (Some a) ->
        descentScore (Some a) <= snd r)
  /\ (r = best \/
      exists g a, In g segs
        /\ analyzeDescentSegment points eles (peakI g) (troughI g) = Done (Some a)
        /\ r = (Some a, descentScore (Some a))
        /\ snd best < descentScore (Some a)).
Proof.
  induction segs as [|g l IH]; intros best r Hrun.
  - cbn in Hrun. injection Hrun as <-. split; [lra|]. split; [intros g a []|now left].
  - cbn [forEachM] in Hrun. unfold best_body at 1 in Hrun.
    destruct (analyzeDescentSegment points eles (peakI g) (troughI g)) as [|[a|]] eqn:Ha;
      [discriminate| |]; cbn [bind] in Hrun.
    + destruct (Rltb_spec (snd best) (descentScore (Some a))) as [Hlt|Hge]; cbn [bind] in Hrun.
      * destruct (IH _ _ Hrun) as (Hle & Hall & Hfrom). cbn [snd] in Hle.
        split; [lra|]. split.
        -- intros g' a' [<-|Hin] Ha'; [|now apply (Hall g' a')].
           rewrite Ha in Ha'. injection Ha' as <-. exact Hle.
        -- right. destruct Hfrom as [->|(g' & a' & Hin & Ha' & -> & Hlt')].
           ++ exists g, a. repeat split; try assumption. now left.
           ++ exists g', a'. cbn [snd] in Hlt'. repeat split; try assumption; [now right | lra].
      * destruct (IH _ _ Hrun) as (Hle & Hall & Hfrom).
        split; [assumption|]. split.
        -- intros g' a' [<-|Hin] Ha'; [|now apply (Hall g' a')].
           rewrite Ha in Ha'. injection Ha' as <-. lra.
        -- destruct Hfrom as [->|(g' & a' & Hin & Ha' & -> & Hlt')]; [now left|].
           right. exists g', a'. repeat split; try assumption. now right.
    + destruct (IH _ _ Hrun) as (Hle & Hall & Hfrom).
      split; [assumption|]. split.
      * intros g' a' [<-|Hin] Ha'; [congruence | now apply (Hall g' a')].
      * destruct Hfrom as [->|(g' & a' & Hin & Ha' & -> & Hlt')]; [now left|].
        right. exists g', a'. repeat split; try assumption. now right.
Qed.

(** X11.  Of the segments of a route the aggregator keeps the analysis with
    the highest score: no evaluated segment scores higher than the score
    kept, the score kept is that of the analysis kept and is above 0, and the
    analysis kept is the evaluation of one of the segments; when nothing is
    kept the score is 0. *)
Theorem best_of_segments_keeps_best points eles segs b sc :
  best_of_segments points eles segs = Done (b, sc) ->
  (forall g a, In g segs ->
      analyzeDescentSegment points eles (peakI g) (troughI g) = Done (Some a) ->
      descentScore (Some a) <= sc)
  /\ match b with
     | Some a =>
         sc = descentScore (Some a) /\ 0 < sc
         /\ exists g, In g segs
              /\ analyzeDescentSegment points eles (peakI g) (troughI g) = Done (Some a)
     | None => sc = 0
     end.
Proof.
  unfold best_of_segments. intros H.
  destruct (best_fold_spec points eles segs _ _ H) as (_ & Hall & Hfrom).
  cbn [snd] in *. split; [exact Hall|].
  destruct Hfrom as [E|(g & a & Hin & Ha & E & Hpos)]; injection E as -> ->.
  - reflexivity.
  - split; [reflexivity|]. split; [assumption | eauto].
Qed.

Lemma best_of_segments_keeps_best_witness :
  exists b sc,
    (forall g a, In g (findDescentSegments (map ele five_points)) ->
        analyzeDescentSegment five_points (map ele five_points) (peakI g) (troughI g)
          = Done (Some a) ->
        descentScore (Some a) <= sc)
    /\ match b with
       | Some a =>
           sc = descentScore (Some a) /\ 0 < sc
           /\ exists g, In g (findDescentSegments (map ele five_points))
                /\ analyzeDescentSegment five_points (map ele five_points) (peakI g) (troughI g)
                   = Done (Some a)
       | None => sc = 0
       end.
Proof.
  destruct (descent_pipeline_total five_points (map ele five_points) (length_map _ _))
    as [[b sc] Hr].
  exists b, sc.
  exact (best_of_segments_keeps_best five_points (map ele five_points) _ b sc Hr).
Defined.

(** What the pipeline keeps for a route: a descent of at least 200 m. *)
Lemma pipeline_result_facts points eles a sc :
  best_of_segments points eles (findDescentSegments eles) = Done (Some a, sc) ->
  sc = descentScore (Some a) /\ 0 < sc <= 200
  /\ MIN_DROP_M <= verticalDrop a /\ 10 <= horizDistM a.
Proof.
  unfold best_of_segments. intros H.
  destruct (best_fold_spec points eles _ _ _ H) as (_ & _ & Hfrom). cbn [snd] in Hfrom.
  destruct Hfrom as [E|(g & a' & Hin & Ha & E & Hpos)]; [discriminate|].
  injection E as -> ->.
  pose proof (findDescentSegments_ok eles) as Hok. rewrite Forall_forall in Hok.
  destruct (Hok g Hin) as (_ & _ & _ & Hdrop & Hmin).
  destruct (analyzeDescentSegment_parts _ _ _ _ _ Ha) as (d & ss & Hd & _ & Ea).
  pose proof (descentScore_upper a'). unfold MIN_DROP_M in *.
  repeat split; try assumption; try lra.
  - rewrite Ea. cbn [verticalDrop]. rewrite <- Hdrop.
    rewrite <- (js_round_IZR 200). now apply js_round_le.
  - rewrite Ea. cbn [horizDistM]. rewrite <- (js_round_IZR 10). apply js_round_le. lra.
Qed.

Lemma tour_descent_facts points a sc :
  tour_descent points = Done (Some a, sc) ->
  sc = descentScore (Some a) /\ 0 < sc <= 200
  /\ MIN_DROP_M <= verticalDrop a /\ 10 <= horizDistM a.
Proof.
  unfold tour_descent.
  destruct (length (findDescentSegments (map ele points)) =? 0)%nat; apply pipeline_result_facts.
Qed.

(** X12.  Every scored result, of a local track or of a catalog route, has a
    score above 0 and at most 200 that is the score of its descent, a descent
    with a vertical drop of at least [MIN_DROP_M] = 200 m and a horizontal
    distance of at least 10 m; a local track that yields one has at least 50
    points, a catalog route at least 5 coordinates, and the result carries
    the route's name. *)
Theorem scored_result_facts :
  (forall f r, analyzeGpxTrack f = Done (Some r) ->
     r_score r = descentScore (Some (r_descent r)) /\ 0 < r_score r <= 200
     /\ MIN_DROP_M <= verticalDrop (r_descent r) /\ 10 <= horizDistM (r_descent r)
     /\ (50 <= length (g_points f))%nat /\ r_name r = g_name f)
  /\ (forall t r, analyzeToppturTour t = Done (Some r) ->
        r_score r = descentScore (Some (r_descent r)) /\ 0 < r_score r <= 200
        /\ MIN_DROP_M <= verticalDrop (r_descent r) /\ 10 <= horizDistM (r_descent r)
        /\ (exists coordinates, t_coordinates t = Some coordinates
                                /\ (5 <= length coordinates)%nat)
        /\ r_name r = t_name t).
Proof.
  split.
  - intros f r. unfold analyzeGpxTrack.
    destruct (Nat.ltb_spec (length (g_points f)) 50) as [|Hlen]; [discriminate|].
    destruct (length (findDescentSegments (smoothElevation (g_points f) SMOOTH_WINDOW)) =? 0)%nat;
      [discriminate|].
    destruct (best_of_segments _ _ _) as [|[[a|] sc]] eqn:Hbest; cbn [bind fst snd];
      try discriminate.
    intros H. injection H as <-. cbn [r_score r_descent r_name].
    destruct (pipeline_result_facts _ _ _ _ Hbest) as (H1 & H2 & H3 & H4).
    repeat split; try assumption; try lra.
  - intros t r H.
    destruct (analyzeToppturTour_result t r H) as (coords & Hc & Hd).
    destruct (tour_descent_facts _ _ _ Hd) as (H1 & H2 & H3 & H4).
    unfold analyzeToppturTour in H. rewrite Hc in H.
    destruct (Nat.ltb_spec (length coords) 5) as [|Hlen]; [discriminate|].
    repeat split; try assumption; try lra; [eauto|].
    destruct coords as [|c0 rest]; [discriminate|].
    destruct (outside_bbox c0); [discriminate|].
    destruct (get_point (map to_point (c0 :: rest)) 0); [discriminate|]. cbn [bind] in H.
    destruct (Rltb MAX_DRIVE_KM _); [discriminate|].
    destruct (tour_descent (map to_point (c0 :: rest))) as [|[[a|] sc]]; cbn [bind fst snd] in H;
      try discriminate.
    injection H as <-. reflexivity.
Qed.

Lemma five_point_tour_result :
  exists r, analyzeToppturTour five_point_tour = Done (Some r).
Proof.
  destruct five_points_descent as (an & sc & Hdescent).
  unfold analyzeToppturTour, five_point_tour.
  cbn [t_coordinates length Nat.ltb Nat.leb t_name t_id t_place t_ates].
  unfold outside_bbox, TROMSO_minLat, TROMSO_maxLat, TROMSO_minLon, TROMSO_maxLon.
  cbn [c_lat c_lon]. decide_cmp. cbn [orb].
  rewrite five_point_tour_points, Hdescent.
  unfold five_points, TROMSO_lat, TROMSO_lon, MAX_DRIVE_KM.
  cbn [get_point nth_error bind lat lon].
  rewrite haversineKm_same_lon by lra.
  rewrite Rltb_false by lra.
  cbn [bind fst snd]. eauto.
Qed.

Lemma scored_result_facts_witness :
  exists r,
    r_score r = descentScore (Some (r_descent r)) /\ 0 < r_score r <= 200
    /\ MIN_DROP_M <= verticalDrop (r_descent r) /\ 10 <= horizDistM (r_descent r)
    /\ (exists coordinates, t_coordinates five_point_tour = Some coordinates
                            /\ (5 <= length coordinates)%nat)
    /\ r_name r = t_name five_point_tour.
Proof.
  destruct five_point_tour_result as (r & Hr). exists r.
  exact (proj2 scored_result_facts five_point_tour r Hr).
Defined.

(** *** No faults *)

Lemma analyzeGpxTrack_total f : exists r, analyzeGpxTrack f = Done r.
Proof.
  unfold analyzeGpxTrack.
  destruct (length (g_points f) <? 50)%nat; [eauto|].
  destruct (length (findDescentSegments (smoothElevation (g_points f) SMOOTH_WINDOW)) =? 0)%nat;
    [eauto|].
  assert (Hsame : length (smoothElevation (g_points f) SMOOTH_WINDOW) = length (g_points f))
    by (unfold smoothElevation, mapi; apply length_mapi_from).
  destruct (descent_pipeline_total (g_points f) _ Hsame) as [[b sc] Hr].
  unfold descent_pipeline in Hr. rewrite Hr. cbn [bind fst snd]. destruct b; eauto.
Qed.

Lemma tour_descent_total points : exists r, tour_descent points = Done r.
Proof.
  unfold tour_descent.
  destruct (length (findDescentSegments (map ele points)) =? 0)%nat.
  - apply (descent_pipeline_total (rev points) (map ele (rev points))). apply length_map.
  - apply (descent_pipeline_total points (map ele points)). apply length_map.
Qed.

Lemma analyzeToppturTour_total t : exists r, analyzeToppturTour t = Done r.
Proof.
  unfold analyzeToppturTour. destruct (t_coordinates t) as [coords|]; [|eauto].
  destruct (Nat.ltb_spec (length coords) 5) as [|Hlen]; [eauto|].
  destruct coords as [|c0 rest]; [cbn in Hlen; lia|].
  destruct (outside_bbox c0); [eauto|].
  cbn [map get_point nth_error bind].
  destruct (Rltb MAX_DRIVE_KM _); [eauto|].
  destruct (tour_descent_total (to_point c0 :: map to_point rest)) as [[b sc] ->].
  cbn [bind fst snd]. destruct b; eauto.
Qed.

Lemma collect_total {A B : Type} (f : A -> outcome (option B)) (l : list A) :
  (forall a, exists r, f a = Done r) -> exists rs, collect f l = Done rs.
Proof.
  intros Hf. induction l as [|a l [rs IH]]; cbn [collect]; [eauto|].
  destruct (Hf a) as [r ->]. rewrite IH. cbn [bind]. eauto.
Qed.

(** X13.  The analysis of a route never stops on a read outside an array:
    for every local track and every catalog route the per-route analysis
    returns, with a result or with none, and so does the analysis of every
    list of tracks and of every list of catalog routes. *)
Theorem aggregators_never_fault :
  (forall f, analyzeGpxTrack f <> Fault)
  /\ (forall t, analyzeToppturTour t <> Fault)
  /\ (forall files, analyzeGpxTracks files <> Fault)
  /\ (forall allTours, analyzeToppturTours allTours <> Fault).
Proof.
  repeat split.
  - intros f. destruct (analyzeGpxTrack_total f) as [r ->]. discriminate.
  - intros t. destruct (analyzeToppturTour_total t) as [r ->]. discriminate.
  - intros files. destruct (collect_total analyzeGpxTrack files analyzeGpxTrack_total) as [rs H].
    unfold analyzeGpxTracks. rewrite H. discriminate.
  - intros ts. destruct (collect_total analyzeToppturTour ts analyzeToppturTour_total) as [rs H].
    unfold analyzeToppturTours. rewrite H. discriminate.
Qed.

Lemma collect_app {A B : Type} (f : A -> outcome (option B)) (l1 l2 : list A) :
  collect f (l1 ++ l2) = (r1 <- collect f l1 ;; r2 <- collect f l2 ;; Done (r1 ++ r2)).
Proof.
  induction l1 as [|a l1 IH]; cbn [app collect bind].
  - destruct (collect f l2); reflexivity.
  - destruct (f a) as [|x]; [reflexivity|]. cbn [bind]. rewrite IH.
    destruct (collect f l1) as [|r1]; [reflexivity|]. cbn [bind].
    destruct (collect f l2) as [|r2]; [reflexivity|]. cbn [bind].
    destruct x; reflexivity.
Qed.

Lemma collect_in {A B : Type} (f : A -> outcome (option B)) (l : list A) : forall rs,
  collect f l = Done rs ->
  (forall b, In b rs <-> exists a, In a l /\ f a = Done (Some b))
  /\ (length rs <= length l)%nat.
Proof.
  induction l as [|a l IH]; intros rs H.
  - cbn in H. injection H as <-. split; [|cbn; lia].
    intros b. split; [intros [] | intros (a & [] & _)].
  - cbn [collect] in H. destruct (f a) as [|x] eqn:Hfa; [discriminate|]. cbn [bind] in H.
    destruct (collect f l) as [|rest]; [discriminate|]. cbn [bind] in H.
    destruct (IH rest eq_refl) as (Hin & Hlen). injection H as <-.
    destruct x as [b0|].
    + split; [|cbn; lia]. intros b. split.
      * intros [<-|Hb]; [exists a; split; [now left | assumption]|].
        apply Hin in Hb. destruct Hb as (a' & Ha' & Hf). exists a'. split; [now right | assumption].
      * intros (a' & [<-|Ha'] & Hf).
        -- rewrite Hfa in Hf. injection Hf as <-. now left.
        -- right. apply Hin. eauto.
    + split; [|cbn; lia]. intros b. split.
      * intros Hb. apply Hin in Hb. destruct Hb as (a' & Ha' & Hf). exists a'. split; [now right | assumption].
      * intros (a' & [<-|Ha'] & Hf); [congruence|]. apply Hin. eauto.
Qed.

(** X14.  Routes are analysed independently of one another: the results of a
    list of tracks followed by a second list are the results of the first
    list followed by those of the second; a result is in the output exactly
    when it is the result of one of the routes; and there are at most as many
    results as routes.  The same holds for catalog routes. *)
Theorem aggregators_by_route :
  (forall files1 files2 r1 r2,
      analyzeGpxTracks files1 = Done r1 -> analyzeGpxTracks files2 = Done r2 ->
      analyzeGpxTracks (files1 ++ files2) = Done (r1 ++ r2))
  /\ (forall files rs,
        analyzeGpxTracks files = Done rs ->
        (forall r, In r rs <-> exists f, In f files /\ analyzeGpxTrack f = Done (Some r))
        /\ (length rs <= length files)%nat)
  /\ (forall tours1 tours2 r1 r2,
        analyzeToppturTours tours1 = Done r1 -> analyzeToppturTours tours2 = Done r2 ->
        analyzeToppturTours (tours1 ++ tours2) = Done (r1 ++ r2))
  /\ (forall allTours rs,
        analyzeToppturTours allTours = Done rs ->
        (forall r, In r rs <-> exists t, In t allTours /\ analyzeToppturTour t = Done (Some r))
        /\ (length rs <= length allTours)%nat).
Proof.
  unfold analyzeGpxTracks, analyzeToppturTours. repeat split.
  - intros l1 l2 r1 r2 H1 H2. rewrite collect_app, H1, H2. reflexivity.
  - now apply (collect_in analyzeGpxTrack files rs).
  - now apply (collect_in analyzeGpxTrack files rs).
  - now apply (collect_in analyzeGpxTrack files rs).
  - intros l1 l2 r1 r2 H1 H2. rewrite collect_app, H1, H2. reflexivity.
  - now apply (collect_in analyzeToppturTour allTours rs).
  - now apply (collect_in analyzeToppturTour allTours rs).
  - now apply (collect_in analyzeToppturTour allTours rs).
Qed.

Lemma aggregators_by_route_witness :
  analyzeGpxTracks
    ([mkGpx [mkPoint 69.5 19 (Some 600); mkPoint 69.5 19 (Some 100)]
        String.EmptyString None String.EmptyString] ++ [])
  = Done ([] ++ []).
Proof.
  apply (proj1 aggregators_by_route
           [mkGpx [mkPoint 69.5 19 (Some 600); mkPoint 69.5 19 (Some 100)]
              String.EmptyString None String.EmptyString] [] [] []); reflexivity.
Defined.

(** ** Ranking *)










(** X17.  Every catalog result comes from a route whose first coordinate lies
    inside the bounding box and within [MAX_DRIVE_KM] = 65 km of the
    reference point; the distance it records is that distance rounded to one
    decimal, between 0 and 65. *)
Theorem catalog_result_in_reach (t : tour) (r : scored) :
  analyzeToppturTour t = Done (Some r) ->
  exists c0 rest,
    t_coordinates t = Some (c0 :: rest)
    /\ TROMSO_minLat <= c_lat c0 <= TROMSO_maxLat
    /\ TROMSO_minLon <= c_lon c0 <= TROMSO_maxLon
    /\ haversineKm TROMSO_lat TROMSO_lon (c_lat c0) (c_lon c0) <= MAX_DRIVE_KM
    /\ exists d,
         r_source r = FromTopptur (t_id t) (t_place t) (t_ates t) d
         /\ d = js_round (haversineKm TROMSO_lat TROMSO_lon (c_lat c0) (c_lon c0) * 10) / 10
         /\ 0 <= d <= MAX_DRIVE_KM.
Proof.
  unfold analyzeToppturTour. destruct (t_coordinates t) as [coords|]; [|discriminate].
  destruct (length coords <? 5)%nat; [discriminate|].
  destruct coords as [|c0 rest]; [discriminate|].
  unfold outside_bbox.
  destruct (Rltb_spec (c_lat c0) TROMSO_minLat); [discriminate|].
  destruct (Rltb_spec TROMSO_maxLat (c_lat c0)); [discriminate|].
  destruct (Rltb_spec (c_lon c0) TROMSO_minLon); [discriminate|].
  destruct (Rltb_spec TROMSO_maxLon (c_lon c0)); [discriminate|].
  cbn [orb map get_point nth_error bind to_point lat lon].
  destruct (Rltb_spec MAX_DRIVE_KM (haversineKm TROMSO_lat TROMSO_lon (c_lat c0) (c_lon c0)))
    as [|Hnear]; [discriminate|].
  destruct (tour_descent _) as [|[[a|] sc]]; cbn [bind fst snd]; try discriminate.
  intros H. injection H as <-. cbn [r_source].
  exists c0, rest. repeat split; try lra.
  eexists. split; [reflexivity|]. split; [reflexivity|].
  pose proof (haversineKm_range TROMSO_lat TROMSO_lon (c_lat c0) (c_lon c0)) as [Hpos _].
  unfold MAX_DRIVE_KM in *.
  set (d := haversineKm TROMSO_lat TROMSO_lon (c_lat c0) (c_lon c0)) in *.
  pose proof (js_round_tenths_bounds (d * 10) 0 650 ltac:(lra)). lra.
Qed.

Lemma catalog_result_in_reach_witness :
  exists r c0 rest,
    t_coordinates five_point_tour = Some (c0 :: rest)
    /\ TROMSO_minLat <= c_lat c0 <= TROMSO_maxLat
    /\ TROMSO_minLon <= c_lon c0 <= TROMSO_maxLon
    /\ haversineKm TROMSO_lat TROMSO_lon (c_lat c0) (c_lon c0) <= MAX_DRIVE_KM
    /\ exists d,
         r_source r = FromTopptur (t_id five_point_tour) (t_place five_point_tour)
                        (t_ates five_point_tour) d
         /\ d = js_round (haversineKm TROMSO_lat TROMSO_lon (c_lat c0) (c_lon c0) * 10) / 10
         /\ 0 <= d <= MAX_DRIVE_KM.
Proof.
  destruct five_point_tour_result as (r & Hr). exists r.
  exact (catalog_result_in_reach five_point_tour r Hr).
Defined.
